(** * The DDEX documentation crawler (etc/ddex.py): model and properties

    A shallow embedding of [etc/ddex.py]: the scorer, the domain allow-list,
    the liveness check, the depth-limited breadth-first crawl and the
    reconciliation loop of [main], with the properties of the specification
    proved about them.

    Python strings are modelled by [string]; a character is a code point
    below 256.  The network, the HTML parser and the URL joiner are not part
    of the program: they are parameters of the model (Section variables). *)

From Stdlib Require Import ZArith Lia Bool Ascii String List Sorted.
From stdpp Require Import gmap strings list fin_maps sorting.

Local Open Scope string_scope.
Local Open Scope list_scope.

(** ** Characters *)

Module Char.

Definition code (c : ascii) : N := N_of_ascii c.

Definition between (lo hi : N) (c : ascii) : bool :=
  ((lo <=? code c) && (code c <=? hi))%N.

Definition is_code (n : N) (c : ascii) : bool := (code c =? n)%N.

(** [str.isspace] on the code points below 256. *)
Definition isspace (c : ascii) : bool :=
  between 9 13 c || between 28 32 c || is_code 133 c || is_code 160 c.

(** The characters [str.lstrip] removes in [urlsplit]: C0 controls and
    the space. *)
Definition is_c0_or_space (c : ascii) : bool := between 0 32 c.

Definition is_ascii_alpha (c : ascii) : bool :=
  between 65 90 c || between 97 122 c.

Definition is_ascii_digit (c : ascii) : bool := between 48 57 c.

(** [str.lower] on one code point below 256: the ASCII capitals and the
    Latin-1 capitals (all of 192..222 but the multiplication sign). *)
Definition lower (c : ascii) : ascii :=
  if between 65 90 c || (between 192 222 c && negb (is_code 215 c))
  then ascii_of_N (code c + 32)
  else c.

(** The class [\w] of [re] on [str] patterns: alphanumeric code points
    (letters, decimals, digits and numerics) and the underscore. *)
Definition is_word (c : ascii) : bool :=
  is_ascii_alpha c || is_ascii_digit c || is_code 95 c
  || is_code 170 c || is_code 178 c || is_code 179 c || is_code 181 c || is_code 185 c || is_code 186 c
  || between 188 190 c
  || between 192 214 c || between 216 246 c || between 248 255 c.

End Char.

(** ** String operations of the Python runtime used by the program *)

Module Str.

Fixpoint lower (s : string) : string :=
  match s with
  | EmptyString => EmptyString
  | String c r => String (Char.lower c) (lower r)
  end.

Fixpoint lstrip_by (p : ascii -> bool) (s : string) : string :=
  match s with
  | EmptyString => EmptyString
  | String c r => if p c then lstrip_by p r else s
  end.

(** Removes the trailing characters satisfying [p]. *)
Fixpoint rstrip_by (p : ascii -> bool) (s : string) : string :=
  match s with
  | EmptyString => EmptyString
  | String c r =>
      match rstrip_by p r with
      | EmptyString => if p c then EmptyString else String c EmptyString
      | r' => String c r'
      end
  end.

(** [s.strip()] *)
Definition strip (s : string) : string :=
  rstrip_by Char.isspace (lstrip_by Char.isspace s).

(** [s.startswith(p)] *)
Fixpoint startswith (p s : string) : bool :=
  match p, s with
  | EmptyString, _ => true
  | String a p', String b s' => if Ascii.eqb a b then startswith p' s' else false
  | String _ _, EmptyString => false
  end.

(** What is left of [s] after the prefix [p], when [s] starts with it. *)
Fixpoint strip_prefix (p s : string) : option string :=
  match p, s with
  | EmptyString, _ => Some s
  | String a p', String b s' => if Ascii.eqb a b then strip_prefix p' s' else None
  | String _ _, EmptyString => None
  end.

(** [p in s] *)
Fixpoint contains (p s : string) : bool :=
  startswith p s ||
  match s with
  | EmptyString => false
  | String _ r => contains p r
  end.

(** [s.endswith(p)] *)
Fixpoint endswith (p s : string) : bool :=
  String.eqb p s ||
  match s with
  | EmptyString => false
  | String _ r => endswith p r
  end.

Fixpoint filter (p : ascii -> bool) (s : string) : string :=
  match s with
  | EmptyString => EmptyString
  | String c r => if p c then String c (filter p r) else filter p r
  end.

(** [c in s] for a character. *)
Fixpoint mem (c : ascii) (s : string) : bool :=
  match s with
  | EmptyString => false
  | String d r => Ascii.eqb c d || mem c r
  end.

Fixpoint forallb (p : ascii -> bool) (s : string) : bool :=
  match s with
  | EmptyString => true
  | String c r => p c && forallb p r
  end.

(** [s[:n]] *)
Fixpoint take (n : nat) (s : string) : string :=
  match n, s with
  | S k, String c r => String c (take k r)
  | _, _ => EmptyString
  end.

(** The part of [s] before the first character satisfying [p] (all of
    [s] when there is none), and the rest from that character on. *)
Fixpoint break (p : ascii -> bool) (s : string) : string * string :=
  match s with
  | EmptyString => (EmptyString, EmptyString)
  | String c r =>
      if p c then (EmptyString, s)
      else let '(a, b) := break p r in (String c a, b)
  end.

(** [sep.join(parts)] *)
Fixpoint join (sep : string) (parts : list string) : string :=
  match parts with
  | [] => EmptyString
  | [x] => x
  | x :: rest => x +:+ sep +:+ join sep rest
  end.

(** The last character of [s], or [default] when [s] is empty. *)
Fixpoint last_char (s : string) (default : option ascii) : option ascii :=
  match s with
  | EmptyString => default
  | String c r => last_char r (Some c)
  end.

Definition head (s : string) : option ascii :=
  match s with
  | EmptyString => None
  | String c _ => Some c
  end.

(** Truthiness of a string: [bool(s)]. *)
Definition nonempty (s : string) : bool :=
  match s with
  | EmptyString => false
  | String _ _ => true
  end.

End Str.

(** ** The pattern [\b<tag>\b] of the [re] module

    [re.escape(tag)] makes the tag a literal, so the only pattern the
    program builds is a literal between two word-boundary assertions. *)

Module Re.

Definition word_at (c : option ascii) : bool :=
  match c with
  | Some c => Char.is_word c
  | None => false
  end.

(** [\b] between the character [prev] (absent at the start of the text)
    and the character [next] (absent at its end). *)
Definition boundary (prev next : option ascii) : bool :=
  xorb (word_at prev) (word_at next).

(** The pattern matches at the position whose previous character is
    [prev] and whose remaining text is [text]. *)
Definition match_here (lit : string) (prev : option ascii) (text : string) : bool :=
  boundary prev (Str.head text) &&
  match Str.strip_prefix lit text with
  | Some rest => boundary (Str.last_char lit prev) (Str.head rest)
  | None => false
  end.

(** [re.search]: is there a position where the pattern matches? *)
Fixpoint search_from (lit : string) (prev : option ascii) (text : string) : bool :=
  match_here lit prev text ||
  match text with
  | EmptyString => false
  | String c r => search_from lit (Some c) r
  end.

Definition search (lit text : string) : bool := search_from lit None text.

(** [len(re.findall(...))]: the matches found scanning from the left,
    each search resuming where the previous match ended (one character
    further after an empty match).  [skip] counts the characters still
    covered by the last match. *)
Fixpoint findall_from (lit : string) (prev : option ascii) (skip : nat)
    (text : string) : nat :=
  match text with
  | EmptyString =>
      match skip with
      | O => if match_here lit prev EmptyString then 1 else 0
      | S _ => 0
      end
  | String c r =>
      match skip with
      | S k => findall_from lit (Some c) k r
      | O =>
          if match_here lit prev text
          then S (findall_from lit (Some c) (String.length lit - 1) r)
          else findall_from lit (Some c) 0 r
      end
  end%nat.

Definition findall_count (lit text : string) : nat := findall_from lit None 0 text.

End Re.

(** The tag stands somewhere in the text between two word boundaries. *)
Definition whole_word_in (tag text : string) : Prop :=
  exists pre post,
    text = pre +:+ tag +:+ post /\
    Re.boundary (Str.last_char pre None) (Str.head (tag +:+ post)) = true /\
    Re.boundary (Str.last_char (pre +:+ tag) None) (Str.head post) = true.

(** *** Whole words by position

    The occurrences of a tag in a text as the specification counts them,
    stated on the positions of the text and not on a scan of it. *)

Definition char_before (text : string) (i : nat) : option ascii :=
  match i with
  | O => None
  | S j => String.get j text
  end.

(** The tag stands at position [i] of the text, between two word
    boundaries. *)
Definition whole_word_at (tag text : string) (i : nat) : bool :=
  Re.boundary (char_before text i) (String.get i text)
  && String.eqb (String.substring i (String.length tag) text) tag
  && Re.boundary (char_before text (i + String.length tag))
                 (String.get (i + String.length tag) text).

(** Every position where the tag stands as a whole word, in order. *)
Definition whole_word_positions (tag text : string) : list nat :=
  List.filter (whole_word_at tag text) (seq 0 (S (String.length text))).

(** Of the positions [ps], in order, those kept when an occurrence of
    [width] characters may not start before position [free] nor overlap
    the one kept before it (an empty occurrence takes one position). *)
Fixpoint leftmost_disjoint (width free : nat) (ps : list nat) : list nat :=
  match ps with
  | [] => []
  | i :: r =>
      if (free <=? i)%nat
      then i :: leftmost_disjoint width (i + Nat.max 1 width) r
      else leftmost_disjoint width free r
  end.

(** The whole-word occurrences counted from the left without overlap. *)
Definition counted_occurrences (tag text : string) : list nat :=
  leftmost_disjoint (String.length tag) 0 (whole_word_positions tag text).

(** The tag is a substring of the URL, letter case apart. *)
Definition ci_substring (tag url : string) : Prop :=
  exists a b, Str.lower url = a +:+ Str.lower tag +:+ b.

(** ** Constants of the program *)

Definition SEEDS : list string :=
  [ "https://ern.ddex.net/";
    "https://service.ddex.net/dd/ERN38/";
    "https://ddex.net/standards/" ].

Definition ALLOWED_DOMAINS : list string :=
  [ "ern.ddex.net"; "service.ddex.net"; "ddex.net" ].

Definition MAX_PAGES : nat := 1000.
Definition MAX_DEPTH : nat := 5.

Definition DOMAIN_PRIORITY : gmap string Z :=
  list_to_map [ ("ern.ddex.net", 3%Z); ("service.ddex.net", 2%Z); ("ddex.net", 1%Z) ].

Definition PLACEHOLDER_PREFIX : string := "https://ddex.net/docs/".

(** ** [urllib.parse.urlparse(url).netloc]

    The network location as [urlsplit] of CPython 3.12 computes it: leading
    C0 controls and spaces are stripped, tabs and line breaks removed, a
    scheme is split off, and after [//] the location runs to the first of
    [/], [?] or [#].  [None] stands for the [ValueError] raised when the
    location has one kind of bracket without the other, or brackets the
    library does not accept.  (The NFKC check of the location cannot fail
    on code points below 256.) *)

Module Url.

Definition is_unsafe (c : ascii) : bool :=
  Char.is_code 9 c || Char.is_code 10 c || Char.is_code 13 c.

Definition scheme_char (c : ascii) : bool :=
  Char.is_ascii_alpha c || Char.is_ascii_digit c || Str.mem c "+-.".

Definition is_colon (c : ascii) : bool := Ascii.eqb c ":".
Definition is_delim (c : ascii) : bool := Str.mem c "/?#".

(** The URL without its scheme and colon, when it has a scheme. *)
Definition drop_scheme (url : string) : string :=
  let '(pre, rest) := Str.break is_colon url in
  match pre, rest with
  | String c0 _, String _ after =>
      if Char.is_ascii_alpha c0 && Str.forallb scheme_char pre then after else url
  | _, _ => url
  end.

Section Netloc.

(** Whether the library accepts the bracketed part of a network location
    whose brackets pair up (an IPv6 or IPvFuture literal, well placed). *)
Variable brackets_ok : string -> bool.

Definition netloc (url : string) : option string :=
  let url := Str.lstrip_by Char.is_c0_or_space url in
  let url := Str.filter (fun c => negb (is_unsafe c)) url in
  match drop_scheme url with
  | String "/" (String "/" r) =>
      let nl := fst (Str.break is_delim r) in
      let lb := Str.mem "[" nl in
      let rb := Str.mem "]" nl in
      if xorb lb rb then None
      else if lb && negb (brackets_ok nl) then None
      else Some nl
  | _ => Some EmptyString
  end.

End Netloc.

End Url.

(** ** The outside world

    A request sent by [requests.get] or [requests.head], with its timeout.
    [HEAD] requests are the ones sent with [allow_redirects=True]. *)

Inductive request : Type :=
  | GET (url : string) (timeout : Z)
  | HEAD (url : string) (timeout : Z).

(** What the program reads of a response. *)
Record response : Type := Response {
  status_code : Z;
  content_type : option string;   (* [r.headers.get("content-type")] *)
  text : string
}.

(** A value of the loaded JSON object: a string, or anything else. *)
Inductive json : Type :=
  | JStr (s : string)
  | JOther.

Definition CHECK_TIMEOUT : Z := 8.
Definition FETCH_TIMEOUT : Z := 15.

Definition newline : string := String (ascii_of_nat 10) EmptyString.

(** [dict.fromkeys(l)] as a list of keys: first occurrences, in order. *)
Fixpoint fromkeys_from (seen : list string) (l : list string) : list string :=
  match l with
  | [] => []
  | x :: r =>
      if bool_decide (x ∈ seen) then fromkeys_from seen r
      else x :: fromkeys_from (x :: seen) r
  end.

Definition fromkeys (l : list string) : list string := fromkeys_from [] l.

(** The pages scored for tag [t] so far, oldest first, with their scores. *)
Definition events_for (t : string) (hist : list (string * Z * string)) : list (Z * string) :=
  map (fun e => (snd (fst e), snd e))
      (List.filter (fun e => String.eqb (fst (fst e)) t) hist).

(** [best] is the entry the table must hold after the scored pages [l]:
    none when there is no page; otherwise a page of [l] whose score no page
    of [l] exceeds and no earlier page of [l] reaches. *)
Definition is_first_max (l : list (Z * string)) (best : option (Z * string)) : Prop :=
  match best with
  | None => l = []
  | Some (sc, u) =>
      exists l1 l2 : list (Z * string),
        l = l1 ++ (sc, u) :: l2 /\
        Forall (fun e => (fst e < sc)%Z) l1 /\
        Forall (fun e => (fst e <= sc)%Z) l2
  end.

Module Ddex.

Section Program.

(** *** Parameters: libraries and network *)

(** Validation by [urllib.parse] of a network location with brackets. *)
Variable brackets_ok : string -> bool.

(** [urldefrag(urljoin(base, href))[0]]; [None] when either raises. *)
Variable urljoin_defrag : string -> string -> option string.

(** BeautifulSoup: whether its calls in [extract_links] raise on the markup
    ([html.parser] rejects some markup); and, when they do not, the [href]
    of every anchor that has one, in document order, and
    [el.get_text(" ", strip=True)] of every element selected by
    [title,h1,h2,h3,code,strong,em,p,li]. *)
Variable soup_raises : string -> bool.
Variable soup_hrefs : string -> list string.
Variable soup_texts : string -> list string.

(** The network: a request changes the state of the world and yields a
    response, or raises ([None]). *)
Variable World : Type.
Variable send : request -> World -> option response * World.

(** The world together with the log of the requests sent so far. *)
Record net : Type := Net {
  world : World;
  sent : list request
}.

Definition http (rq : request) (n : net) : option response * net :=
  let '(r, w) := send rq (world n) in
  (r, {| world := w; sent := sent n ++ [rq] |}).

(** *** Leaves: allow-list, normaliser, fetcher, extractor, scorer *)

Definition netloc : string -> option string := Url.netloc brackets_ok.

Definition same_domain (url : string) : bool :=
  match netloc url with
  | Some nl => existsb (fun d => Str.endswith d (Str.lower nl)) ALLOWED_DOMAINS
  | None => false
  end.

Definition normalize_url (base href : string) : string :=
  match urljoin_defrag base href with
  | Some u => u
  | None => EmptyString
  end.

Definition fetch (url : string) (n : net) : option string * net :=
  let '(r, n') := http (GET url FETCH_TIMEOUT) n in
  match r with
  | Some r =>
      if (status_code r =? 200)%Z
         && Str.contains "text/html" (default EmptyString (content_type r))
      then (Some (text r), n')
      else (None, n')
  | None => (None, n')
  end.

(** [extract_links]; [None] when BeautifulSoup raises: the function has no
    [try] around its calls. *)
Definition extract_links (base_url html : string) : option (list string * string) :=
  if soup_raises html then None
  else
    let links :=
      List.filter (fun u => Str.nonempty u && same_domain u)
                  (map (normalize_url base_url) (soup_hrefs html)) in
    let text_parts :=
      map (Str.take 300) (List.filter Str.nonempty (soup_texts html)) in
    Some (links, Str.join newline text_parts).

(** [DOMAIN_PRIORITY.get(d, 0)] *)
Definition priority (d : string) : Z := default 0%Z (DOMAIN_PRIORITY !! d).

(** [score]; [None] when [urlparse] raises. *)
Definition score (url text tag : string) : option Z :=
  match netloc url with
  | None => None
  | Some nl =>
      let d := Str.lower nl in
      let s := (priority d * 100)%Z in
      let s := if Str.contains (Str.lower tag) (Str.lower url) then (s + 20)%Z else s in
      let occ := Z.of_nat (Re.findall_count tag text) in
      let s := (s + Z.min occ 5 * 10)%Z in
      Some s
  end.

Definition alive_status (st : Z) : bool :=
  ((st =? 200) || (st =? 301) || (st =? 302))%Z.

Definition check_url_alive (url : string) (n : net) : bool * net :=
  if negb (Str.nonempty url) || negb (Str.startswith "http" url) then (false, n)
  else
    let '(r, n1) := http (HEAD url CHECK_TIMEOUT) n in
    match r with
    | None => (false, n1)
    | Some r =>
        if alive_status (status_code r) then (true, n1)
        else if (status_code r =? 405)%Z then
          let '(r2, n2) := http (GET url CHECK_TIMEOUT) n1 in
          match r2 with
          | Some r2 => ((status_code r2 =? 200)%Z, n2)
          | None => (false, n2)
          end
        else (false, n1)
    end.

(** *** The crawl

    The state of the loop of [crawl].  [printed] is the list of progress
    lines (depth, URL, whether the page was usable) in the order they
    are printed; [dequeued] and [scored] are history variables: the items
    popped from the queue, and the (tag, score, URL) triples computed by
    the scoring loop, both oldest first. *)

Record crawl_state : Type := CrawlState {
  visited : gset string;
  queue : list (string * nat);
  pages : nat;
  best_for_tag : gmap string (Z * string);
  network : net;
  printed : list (nat * string * bool);
  dequeued : list (string * nat);
  scored : list (string * Z * string)
}.

Definition crawl_init (n : net) : crawl_state :=
  {| visited := ∅;
     queue := map (fun seed => (seed, 0%nat)) (fromkeys SEEDS);
     pages := 0;
     best_for_tag := ∅;
     network := n;
     printed := [];
     dequeued := [];
     scored := [] |}.

(** [if t not in best_for_tag or sc > best_for_tag[t][0]:
       best_for_tag[t] = (sc, url)] *)
Definition update_best (t : string) (sc : Z) (url : string)
    (best : gmap string (Z * string)) : gmap string (Z * string) :=
  match best !! t with
  | None => <[t := (sc, url)]> best
  | Some (b, _) => if (sc >? b)%Z then <[t := (sc, url)]> best else best
  end.

(** The scoring loop over the tags for one page; [None] when [score]
    raises. *)
Fixpoint score_tags (url text : string) (tags : list string)
    (best : gmap string (Z * string)) (hist : list (string * Z * string))
    : option (gmap string (Z * string) * list (string * Z * string)) :=
  match tags with
  | [] => Some (best, hist)
  | t :: rest =>
      if Re.search t text then
        match score url text t with
        | None => None
        | Some sc =>
            score_tags url text rest (update_best t sc url best)
                       (hist ++ [(t, sc, url)])
        end
      else score_tags url text rest best hist
  end.

(** The children enqueued for a page at [depth]. *)
Definition children (seen : gset string) (depth : nat) (links : list string)
    : list (string * nat) :=
  if (depth <? MAX_DEPTH)%nat
  then map (fun u => (u, S depth)) (List.filter (fun u => negb (bool_decide (u ∈ seen))) links)
  else [].

Inductive step_result : Type :=
  | Stop                        (* the loop condition is false *)
  | Continue (s : crawl_state)  (* one iteration was run *)
  | Raise.                      (* an exception left the loop *)

(** One evaluation of the loop condition and, when it holds, one
    iteration of the body. *)
Definition crawl_step (tags : list string) (s : crawl_state) : step_result :=
  match queue s with
  | [] => Stop
  | (url, depth) :: q =>
      if negb (pages s <? MAX_PAGES)%nat then Stop
      else
        let deq := dequeued s ++ [(url, depth)] in
        if bool_decide (url ∈ visited s) || negb (same_domain url) then
          Continue {| visited := visited s; queue := q; pages := pages s;
                      best_for_tag := best_for_tag s; network := network s;
                      printed := printed s; dequeued := deq;
                      scored := scored s |}
        else
          let seen := {[url]} ∪ visited s in
          let '(html, n') := fetch url (network s) in
          match html with
          | Some (String c h as page) =>
              match extract_links url page with
              | None => Raise
              | Some (links, text) =>
                  match score_tags url text tags (best_for_tag s) (scored s) with
                  | None => Raise
                  | Some (best, hist) =>
                      Continue {| visited := seen;
                                  queue := q ++ children seen depth links;
                                  pages := S (pages s);
                                  best_for_tag := best;
                                  network := n';
                                  printed := printed s ++ [(depth, url, true)];
                                  dequeued := deq;
                                  scored := hist |}
                  end
              end
          | _ =>
              Continue {| visited := seen; queue := q; pages := pages s;
                          best_for_tag := best_for_tag s; network := n';
                          printed := printed s ++ [(depth, url, false)];
                          dequeued := deq; scored := scored s |}
          end
  end.

Inductive run_result : Type :=
  | Finished (s : crawl_state)
  | Exception
  | OutOfFuel.

(** The loop, run for at most [fuel] evaluations of its condition. *)
Fixpoint crawl_loop (tags : list string) (fuel : nat) (s : crawl_state) : run_result :=
  match fuel with
  | O => OutOfFuel
  | S k =>
      match crawl_step tags s with
      | Stop => Finished s
      | Continue s' => crawl_loop tags k s'
      | Raise => Exception
      end
  end.

(** [{t: u for t, (_, u) in best_for_tag.items()}] *)
Definition crawl_result (s : crawl_state) : gmap string string :=
  snd <$> best_for_tag s.

(** [crawl(tags)]: the returned dictionary and the network afterwards. *)
Definition crawl (fuel : nat) (tags : list string) (n : net)
    : option (gmap string string * net) :=
  match crawl_loop tags fuel (crawl_init n) with
  | Finished s => Some (crawl_result s, network s)
  | _ => None
  end.

(** The states of a crawl: the initial one and those the loop goes
    through. *)
Inductive reachable (tags : list string) (n : net) : crawl_state -> Prop :=
  | reachable_init : reachable tags n (crawl_init n)
  | reachable_step s s' :
      reachable tags n s -> crawl_step tags s = Continue s' -> reachable tags n s'.

(** The three ways through the loop body: the item is discarded, the
    page is unusable, or the page is scored and its links enqueued. *)
Inductive iteration (tags : list string) (s : crawl_state) : crawl_state -> Prop :=
  | iter_discard url depth q :
      queue s = (url, depth) :: q ->
      (pages s < MAX_PAGES)%nat ->
      url ∈ visited s \/ same_domain url = false ->
      iteration tags s
        {| visited := visited s; queue := q; pages := pages s;
           best_for_tag := best_for_tag s; network := network s;
           printed := printed s; dequeued := dequeued s ++ [(url, depth)];
           scored := scored s |}
  | iter_unusable url depth q html n' :
      queue s = (url, depth) :: q ->
      (pages s < MAX_PAGES)%nat ->
      url ∉ visited s -> same_domain url = true ->
      fetch url (network s) = (html, n') ->
      html = None \/ html = Some EmptyString ->
      iteration tags s
        {| visited := {[url]} ∪ visited s; queue := q; pages := pages s;
           best_for_tag := best_for_tag s; network := n';
           printed := printed s ++ [(depth, url, false)];
           dequeued := dequeued s ++ [(url, depth)];
           scored := scored s |}
  | iter_page url depth q page n' links text best hist :
      queue s = (url, depth) :: q ->
      (pages s < MAX_PAGES)%nat ->
      url ∉ visited s -> same_domain url = true ->
      fetch url (network s) = (Some page, n') ->
      page <> EmptyString ->
      extract_links url page = Some (links, text) ->
      score_tags url text tags (best_for_tag s) (scored s) = Some (best, hist) ->
      iteration tags s
        {| visited := {[url]} ∪ visited s;
           queue := q ++ children ({[url]} ∪ visited s) depth links;
           pages := S (pages s);
           best_for_tag := best; network := n';
           printed := printed s ++ [(depth, url, true)];
           dequeued := dequeued s ++ [(url, depth)];
           scored := hist |}.

(** *** Invariants of the loop, as predicates on its states *)

(** Nothing in the queue, dequeued or fetched is deeper than [MAX_DEPTH]. *)
Definition depth_bounded (s : crawl_state) : Prop :=
  Forall (fun x => (snd x <= MAX_DEPTH)%nat) (queue s) /\
  Forall (fun x => (snd x <= MAX_DEPTH)%nat) (dequeued s) /\
  Forall (fun x => (fst (fst x) <= MAX_DEPTH)%nat) (printed s).

(** Breadth-first order: the depths of the items dequeued so far followed
    by those of the queue never decrease, the depths in the queue differ
    by at most one, and the fetched pages are, in order, among the
    dequeued items. *)
Definition bfs_ordered (s : crawl_state) : Prop :=
  StronglySorted le (map snd (dequeued s) ++ map snd (queue s)) /\
  (forall x y, x ∈ map snd (queue s) -> y ∈ map snd (queue s) -> (x <= S y)%nat) /\
  sublist (map (fun p => fst (fst p)) (printed s)) (map snd (dequeued s)).

(** Every entry of the table is a page of this run, scored at least 10. *)
Definition table_sound (s : crawl_state) : Prop :=
  forall t sc u, best_for_tag s !! t = Some (sc, u) ->
    u ∈ visited s /\
    same_domain u = true /\
    (exists d, (u, d) ∈ dequeued s) /\
    (exists d, (d, u, true) ∈ printed s) /\
    (10 <= sc)%Z.

(** Every entry of the table is the first maximum of the pages scored for
    its tag. *)
Definition table_first_max (s : crawl_state) : Prop :=
  forall t, is_first_max (events_for t (scored s)) (best_for_tag s !! t).

(** Every triple of the scoring history is a tag of the caller found as a
    whole word in the text of a visited page, with the score of that page. *)
Definition scored_sound (tags : list string) (s : crawl_state) : Prop :=
  Forall (fun e =>
            fst (fst e) ∈ tags /\
            snd e ∈ visited s /\
            exists text, whole_word_in (fst (fst e)) text /\
                         score (snd e) text (fst (fst e)) = Some (snd (fst e)))
         (scored s).

(** The iteration run in state [s] aborts: the page it fetches makes the
    BeautifulSoup calls of [extract_links] raise. *)
Definition parser_raises_at (s : crawl_state) : Prop :=
  exists url depth q page n',
    queue s = (url, depth) :: q /\
    (pages s < MAX_PAGES)%nat /\
    (url ∉ visited s) /\ same_domain url = true /\
    fetch url (network s) = (Some page, n') /\
    page <> EmptyString /\ soup_raises page = true.

(** *** The reconciliation loop of [main] *)

(** [v.strip() if isinstance(v, str) else ""] *)
Definition old_value (v : json) : string :=
  match v with
  | JStr s => Str.strip s
  | JOther => EmptyString
  end.

(** One iteration of [for k, v in data.items()]: the final URL of the
    tag and the network afterwards. *)
Definition reconcile_entry (scraped : gmap string string) (k : string) (v : json)
    (n : net) : string * net :=
  let old := old_value v in
  let new := scraped !! k in
  let final_url :=
    match new with
    | Some u => if Str.startswith PLACEHOLDER_PREFIX old && Str.nonempty u then u else old
    | None => old
    end in
  if Str.nonempty final_url then
    let '(alive, n') := check_url_alive final_url n in
    (if alive then final_url else EmptyString, n')
  else (final_url, n).

(** The whole loop over the items of [data], filling [updated]. *)
Fixpoint reconcile (scraped : gmap string string) (data : list (string * json))
    (updated : gmap string string) (n : net) : gmap string string * net :=
  match data with
  | [] => (updated, n)
  | (k, v) :: rest =>
      let '(final_url, n') := reconcile_entry scraped k v n in
      reconcile scraped rest (<[k := final_url]> updated) n'
  end.

(** [main] without its file accesses: crawl for the keys of [data], then
    reconcile. *)
Definition main (fuel : nat) (data : list (string * json)) (n : net)
    : option (gmap string string * net) :=
  match crawl fuel (map fst data) n with
  | Some (scraped, n') => Some (reconcile scraped data ∅ n')
  | None => None
  end.

End Program.

Arguments Net {World} _ _.
Arguments world {World} _.
Arguments sent {World} _.
Arguments CrawlState {World} _ _ _ _ _ _ _ _.
Arguments visited {World} _.
Arguments queue {World} _.
Arguments pages {World} _.
Arguments best_for_tag {World} _.
Arguments network {World} _.
Arguments printed {World} _.
Arguments dequeued {World} _.
Arguments scored {World} _.
Arguments Stop {World}.
Arguments Continue {World} _.
Arguments Raise {World}.
Arguments Finished {World} _.
Arguments Exception {World}.
Arguments OutOfFuel {World}.
Arguments http {World} _ _ _.
Arguments fetch {World} _ _ _.
Arguments check_url_alive {World} _ _ _.
Arguments reconcile_entry {World} _ _ _ _ _.
Arguments reconcile {World} _ _ _ _ _.
Arguments crawl_init {World} _.
Arguments crawl_result {World} _.
Arguments depth_bounded {World} _.
Arguments bfs_ordered {World} _.
Arguments table_first_max {World} _.

End Ddex.

Import Ddex.

(** ** A small site, to run the program on

    Two pages on an allowed host, one dead seed, one unreachable seed; the
    state of the world counts the requests. *)

Module Toy.

Definition brackets_ok (_ : string) : bool := true.

(** Every [href] is already absolute and without fragment. *)
Definition join (base href : string) : option string := Some href.

Definition root : string := "https://ern.ddex.net/".
Definition leaf : string := "https://ern.ddex.net/isrc".
Definition placeholder : string := "https://ddex.net/docs/isrc".

Definition page (url : string) : option response :=
  if String.eqb url root then
    Some (Response 200 (Some "text/html; charset=utf-8") "root")
  else if String.eqb url leaf then
    Some (Response 200 (Some "text/html") "leaf")
  else if String.eqb url placeholder then
    Some (Response 200 (Some "text/html") "docs")
  else if String.eqb url "https://ddex.net/standards/" then
    Some (Response 404 (Some "text/html") "gone")
  else None.

(** The parser rejects a marked section it does not know. *)
Definition raises (html : string) : bool := String.eqb html "<![foo[bar]]>".

Definition hrefs (html : string) : list string :=
  if String.eqb html "root"
  then [leaf; "https://example.com/"; root]
  else [].

Definition texts (html : string) : list string :=
  if String.eqb html "root" then ["DDEX"; ""; "The ISRC is a code"]
  else if String.eqb html "leaf" then ["ISRC"; "ISRC ISRC"]
  else [].

Definition send (rq : request) (w : nat) : option response * nat :=
  match rq with
  | GET u _ => (page u, S w)
  | HEAD u _ =>
      (match page u with
       | Some r => Some (Response (status_code r) None EmptyString)
       | None => None
       end, S w)
  end.

(** The same site, with a root page that the parser rejects. *)
Definition send_bad (rq : request) (w : nat) : option response * nat :=
  match rq with
  | GET u _ =>
      (if String.eqb u root
       then Some (Response 200 (Some "text/html") "<![foo[bar]]>")
       else page u, S w)
  | HEAD _ _ => send rq w
  end.

Definition n0 : net nat := Net 0%nat [].

Definition tags : list string := ["ISRC"; "DDEX"; "Foo"].

Definition loop := crawl_loop brackets_ok join raises hrefs texts nat send tags.

(** The state in which the crawl of the site ends. *)
Definition final : crawl_state nat :=
  match loop 10 (crawl_init n0) with
  | Finished s => s
  | _ => crawl_init n0
  end.

End Toy.

(** The weight table as the specification words it: three hosts, and 0
    for every other. *)
Definition weight_of_host (h : string) : Z :=
  if String.eqb h "ern.ddex.net" then 3%Z
  else if String.eqb h "service.ddex.net" then 2%Z
  else if String.eqb h "ddex.net" then 1%Z
  else 0%Z.

(** *** The score as the claim words it

    The host of a network location, as [urlparse(url).hostname] gives it:
    without userinfo and port, in lower case. *)

Fixpoint after_last (c0 : ascii) (s : string) : string :=
  match s with
  | EmptyString => EmptyString
  | String c r =>
      if Str.mem c0 r then after_last c0 r
      else if Ascii.eqb c c0 then r else s
  end.

Definition hostname (nl : string) : string :=
  let hostinfo := after_last "@" nl in
  Str.lower
    (if Str.mem "[" hostinfo
     then match snd (Str.break (Ascii.eqb "[") hostinfo) with
          | EmptyString => EmptyString
          | String _ inside => fst (Str.break (Ascii.eqb "]") inside)
          end
     else fst (Str.break Url.is_colon hostinfo)).

(** The weight of the host times 100, plus 20 for a tag in the URL, plus
    10 for every whole-word occurrence of the tag in the text, up to 5. *)
Definition claimed_score (nl url text tag : string) : Z :=
  (weight_of_host (hostname nl) * 100
   + (if Str.contains (Str.lower tag) (Str.lower url) then 20 else 0)
   + 10 * Z.min (Z.of_nat (length (whole_word_positions tag text))) 5)%Z.

(** * Properties *)

(** ** The definitions on concrete inputs *)

Example netloc_plain :
  netloc Toy.brackets_ok "https://evilddex.net/x?y" = Some "evilddex.net".
Proof. reflexivity. Qed.

Example netloc_keeps_case_and_port :
  netloc Toy.brackets_ok "  HTTPS://Ern.DDEX.net:443/a#b" = Some "Ern.DDEX.net:443".
Proof. reflexivity. Qed.

Example netloc_without_scheme : netloc Toy.brackets_ok "//host" = Some "host".
Proof. reflexivity. Qed.

Example netloc_relative : netloc Toy.brackets_ok "docs/page.html" = Some "".
Proof. reflexivity. Qed.

Example netloc_unpaired_bracket : netloc Toy.brackets_ok "http://[::1/" = None.
Proof. reflexivity. Qed.

Example strip_spaces : Str.strip "  a b  " = "a b".
Proof. reflexivity. Qed.

Example findall_whole_words :
  Re.findall_count "ISRC" "ISRC and ISRC, ISRCx (ISRC)" = 3%nat.
Proof. reflexivity. Qed.

Example findall_no_overlap : Re.findall_count "a-a" "a-a-a" = 1%nat.
Proof. reflexivity. Qed.

Example findall_empty_tag : Re.findall_count "" "ab cd" = 4%nat.
Proof. reflexivity. Qed.

Example search_inside_word : Re.search "ISRC" "xISRCy" = false.
Proof. reflexivity. Qed.

Example score_capped :
  score Toy.brackets_ok "https://service.ddex.net/dd/"
        "DDEX DDEX DDEX DDEX DDEX DDEX DDEX" "DDEX" = Some 270%Z.
Proof. reflexivity. Qed.

Example same_domain_foreign : same_domain Toy.brackets_ok "https://example.com/" = false.
Proof. reflexivity. Qed.

Example toy_table :
  best_for_tag Toy.final !! "ISRC" = Some (350%Z, Toy.leaf) /\
  best_for_tag Toy.final !! "DDEX" = Some (330%Z, Toy.root) /\
  best_for_tag Toy.final !! "Foo" = None.
Proof. vm_compute. auto. Qed.

Example toy_fetched :
  printed Toy.final =
    [ (0%nat, Toy.root, true);
      (0%nat, "https://service.ddex.net/dd/ERN38/", false);
      (0%nat, "https://ddex.net/standards/", false);
      (1%nat, Toy.leaf, true) ].
Proof. vm_compute. reflexivity. Qed.

Example toy_head_405_then_get :
  let send rq (w : unit) :=
    match rq with
    | HEAD _ _ => (Some (Response 405 None EmptyString), w)
    | GET _ _ => (Some (Response 200 None EmptyString), w)
    end in
  check_url_alive send "http://x/" (Net tt []) =
    (true, Net tt [HEAD "http://x/" 8; GET "http://x/" 8]).
Proof. reflexivity. Qed.

Example toy_reconciled :
  let out :=
    fst (reconcile Toy.send {["ISRC" := Toy.leaf]}
           [ ("ISRC", JStr " https://ddex.net/docs/isrc ");
             ("Gone", JStr "https://ddex.net/standards/");
             ("Null", JOther) ] ∅ Toy.n0) in
  out !! "ISRC" = Some Toy.leaf /\ out !! "Gone" = Some "" /\ out !! "Null" = Some "".
Proof. vm_compute. auto. Qed.

(** ** Strings *)

Lemma append_nil (s : string) : EmptyString +:+ s = s.
Proof. reflexivity. Qed.

Lemma append_cons (c : ascii) (a b : string) : String c a +:+ b = String c (a +:+ b).
Proof. reflexivity. Qed.

Lemma append_assoc (a b c : string) : (a +:+ b) +:+ c = a +:+ (b +:+ c).
Proof.
  induction a as [|x a IH]; [reflexivity|].
  rewrite !append_cons, IH. reflexivity.
Qed.

Lemma startswith_spec (p s : string) :
  Str.startswith p s = true <-> exists r, s = p +:+ r.
Proof.
  revert s. induction p as [|a p IH]; intros s; simpl.
  - split; [intros _; exists s; reflexivity | reflexivity].
  - destruct s as [|b s].
    + split; [discriminate | intros [r Hr]; discriminate].
    + destruct (Ascii.eqb_spec a b) as [->|Hab].
      * rewrite IH. split; intros [r Hr]; exists r; rewrite ?append_nil, ?append_cons in *; congruence.
      * split; [discriminate | intros [r Hr]; rewrite ?append_nil, ?append_cons in *; congruence].
Qed.

Lemma contains_spec (p s : string) :
  Str.contains p s = true <-> exists a b, s = a +:+ p +:+ b.
Proof.
  induction s as [|c s IH].
  - simpl. rewrite orb_false_r, startswith_spec. split.
    + intros [r Hr]. exists EmptyString, r. exact Hr.
    + intros [a [b Hab]]. destruct a; [exists b; exact Hab|discriminate].
  - cbn [Str.contains]. rewrite orb_true_iff, startswith_spec, IH. split.
    + intros [[r Hr]|[a [b Hab]]].
      * exists EmptyString, r. exact Hr.
      * exists (String c a), b. rewrite ?append_nil, ?append_cons in *. congruence.
    + intros [a [b Hab]]. destruct a as [|c' a].
      * left. exists b. exact Hab.
      * right. exists a, b. rewrite ?append_nil, ?append_cons in *. congruence.
Qed.

Lemma endswith_spec (p s : string) :
  Str.endswith p s = true <-> exists a, s = a +:+ p.
Proof.
  induction s as [|c s IH].
  - simpl. rewrite orb_false_r, String.eqb_eq. split.
    + intros ->. exists EmptyString. reflexivity.
    + intros [a Ha]. destruct a; rewrite ?append_nil, ?append_cons in *; [congruence | discriminate].
  - cbn [Str.endswith]. rewrite orb_true_iff, String.eqb_eq, IH. split.
    + intros [->|[a Ha]].
      * exists EmptyString. reflexivity.
      * exists (String c a). rewrite ?append_nil, ?append_cons in *. congruence.
    + intros [a Ha]. destruct a as [|c' a]; rewrite ?append_nil, ?append_cons in *.
      * left. congruence.
      * right. exists a. congruence.
Qed.

Lemma nonempty_true (s : string) : Str.nonempty s = true <-> s <> EmptyString.
Proof. destruct s; simpl; split; congruence. Qed.

(** ** The word-boundary pattern *)

Lemma strip_prefix_spec (lit text rest : string) :
  Str.strip_prefix lit text = Some rest <-> text = lit +:+ rest.
Proof.
  revert text. induction lit as [|a lit IH]; intros text; cbn [Str.strip_prefix].
  - rewrite append_nil. split; congruence.
  - destruct text as [|b text]; rewrite append_cons; [split; discriminate|].
    destruct (Ascii.eqb_spec a b) as [->|Hab].
    + rewrite IH. split; congruence.
    + split; [discriminate | congruence].
Qed.

Lemma last_char_app (a b : string) (d : option ascii) :
  Str.last_char (a +:+ b) d = Str.last_char b (Str.last_char a d).
Proof.
  revert d. induction a as [|c a IH]; intros d; [reflexivity|].
  rewrite append_cons. cbn [Str.last_char]. apply IH.
Qed.

Lemma match_here_spec (lit : string) (prev : option ascii) (text : string) :
  Re.match_here lit prev text = true <->
  exists post, text = lit +:+ post /\
    Re.boundary prev (Str.head text) = true /\
    Re.boundary (Str.last_char lit prev) (Str.head post) = true.
Proof.
  unfold Re.match_here. rewrite andb_true_iff. split.
  - intros [Hb Hrest]. destruct (Str.strip_prefix lit text) as [rest|] eqn:Hp; [|discriminate].
    apply strip_prefix_spec in Hp. eauto.
  - intros (post & Htext & Hb1 & Hb2). split; [exact Hb1|].
    apply strip_prefix_spec in Htext. rewrite Htext. exact Hb2.
Qed.

Lemma search_from_spec (lit : string) (text : string) (prev : option ascii) :
  Re.search_from lit prev text = true <->
  exists pre post, text = pre +:+ lit +:+ post /\
    Re.boundary (Str.last_char pre prev) (Str.head (lit +:+ post)) = true /\
    Re.boundary (Str.last_char (pre +:+ lit) prev) (Str.head post) = true.
Proof.
  revert prev. induction text as [|c r IH]; intros prev; cbn [Re.search_from].
  - rewrite orb_false_r, match_here_spec. split.
    + intros (post & Ht & H1 & H2). exists EmptyString, post.
      rewrite append_nil. cbn [Str.last_char]. rewrite <- Ht. auto.
    + intros (pre & post & Ht & H1 & H2). destruct pre; [|discriminate].
      rewrite append_nil in *. cbn [Str.last_char] in H1. rewrite <- Ht in H1. eauto.
  - rewrite orb_true_iff, match_here_spec, IH. split.
    + intros [(post & Ht & H1 & H2)|(pre & post & Ht & H1 & H2)].
      * exists EmptyString, post. rewrite append_nil. cbn [Str.last_char].
        rewrite <- Ht. auto.
      * exists (String c pre), post. rewrite !append_cons. cbn [Str.last_char].
        rewrite Ht. auto.
    + intros (pre & post & Ht & H1 & H2). destruct pre as [|c' pre].
      * left. rewrite append_nil in *. cbn [Str.last_char] in H1. rewrite <- Ht in H1. eauto.
      * right. rewrite !append_cons in *. cbn [Str.last_char] in H1, H2.
        injection Ht as -> ->. eauto.
Qed.

(** [re.search] answers true exactly when the tag stands in the text
    between two word boundaries. *)
Lemma search_spec (tag text : string) :
  Re.search tag text = true <-> whole_word_in tag text.
Proof. apply search_from_spec. Qed.

(** [re.findall] finds a match exactly when [re.search] does. *)
Lemma findall_search (lit : string) (text : string) (prev : option ascii) :
  Re.search_from lit prev text = true <-> (0 < Re.findall_from lit prev 0 text)%nat.
Proof.
  revert prev. induction text as [|c r IH]; intros prev.
  - simpl. rewrite orb_false_r.
    destruct (Re.match_here lit prev EmptyString); split; (lia || congruence).
  - cbn [Re.search_from Re.findall_from].
    destruct (Re.match_here lit prev (String c r)); simpl.
    + split; [lia | reflexivity].
    + apply IH.
Qed.

Lemma search_findall_count (lit text : string) :
  Re.search lit text = true <-> (1 <= Re.findall_count lit text)%nat.
Proof. apply findall_search. Qed.

(** Matches do not overlap: there are no more of them than positions. *)
Lemma findall_from_le (lit : string) (text : string) (prev : option ascii) (skip : nat) :
  (Re.findall_from lit prev skip text <= S (String.length text))%nat.
Proof.
  revert prev skip. induction text as [|c r IH]; intros prev skip.
  - simpl. destruct skip; [destruct (Re.match_here _ _ _)|]; lia.
  - cbn [Re.findall_from String.length]. destruct skip.
    + destruct (Re.match_here _ _ _).
      * specialize (IH (Some c) (String.length lit - 1)%nat). lia.
      * specialize (IH (Some c) 0%nat). lia.
    + specialize (IH (Some c) skip). lia.
Qed.

(** *** The matches of [re.findall], by position *)

Lemma length_append (a b : string) :
  String.length (a +:+ b) = (String.length a + String.length b)%nat.
Proof.
  induction a as [|c a IH]; [reflexivity|].
  rewrite append_cons. cbn [String.length]. rewrite IH. reflexivity.
Qed.

Lemma append_assoc_cons (pre : string) (c : ascii) (r : string) :
  (pre +:+ String c EmptyString) +:+ r = pre +:+ String c r.
Proof.
  induction pre as [|d pre IH]; [reflexivity|].
  rewrite !append_cons, IH. reflexivity.
Qed.

Lemma get_after (pre : string) (c : ascii) (rest : string) :
  String.get (String.length pre) (String c (pre +:+ rest)) = Str.last_char pre (Some c).
Proof.
  revert c. induction pre as [|d pre IH]; intros c; [reflexivity|].
  rewrite append_cons. cbn [String.length String.get Str.last_char]. apply IH.
Qed.

Lemma char_before_append (pre rest : string) :
  char_before (pre +:+ rest) (String.length pre) = Str.last_char pre None.
Proof.
  destruct pre as [|c pre]; [reflexivity|].
  rewrite append_cons. cbn [String.length char_before Str.last_char]. apply get_after.
Qed.

Lemma get_append (pre rest : string) :
  String.get (String.length pre) (pre +:+ rest) = Str.head rest.
Proof.
  induction pre as [|c pre IH]; [destruct rest; reflexivity|].
  rewrite append_cons. cbn [String.length String.get]. exact IH.
Qed.

Lemma substring_append (pre rest : string) (n : nat) :
  String.substring (String.length pre) n (pre +:+ rest) = String.substring 0 n rest.
Proof.
  induction pre as [|c pre IH]; [reflexivity|].
  rewrite append_cons. cbn [String.length String.substring]. exact IH.
Qed.

Lemma substring_strip_prefix (tag rest : string) :
  String.eqb (String.substring 0 (String.length tag) rest) tag =
    match Str.strip_prefix tag rest with
    | Some _ => true
    | None => false
    end.
Proof.
  revert rest. induction tag as [|a tag IH]; intros rest.
  - destruct rest; reflexivity.
  - destruct rest as [|b rest]; [reflexivity|].
    cbn [String.length String.substring Str.strip_prefix String.eqb].
    rewrite (Ascii.eqb_sym b a). destruct (Ascii.eqb a b); [apply IH | reflexivity].
Qed.

(** The scan's test at a position is the positional one. *)
Lemma match_here_at (tag pre rest : string) :
  Re.match_here tag (Str.last_char pre None) rest =
    whole_word_at tag (pre +:+ rest) (String.length pre).
Proof.
  unfold Re.match_here, whole_word_at.
  rewrite char_before_append, get_append, substring_append, substring_strip_prefix.
  rewrite <- andb_assoc. f_equal.
  destruct (Str.strip_prefix tag rest) as [rest'|] eqn:Hp; [|reflexivity].
  apply strip_prefix_spec in Hp. subst rest. cbn [andb].
  rewrite <- append_assoc, <- length_append.
  rewrite char_before_append, get_append, last_char_app. reflexivity.
Qed.

Lemma leftmost_disjoint_free (width free free' : nat) (ps : list nat) :
  Forall (fun i => (free <= i)%nat /\ (free' <= i)%nat) ps ->
  leftmost_disjoint width free ps = leftmost_disjoint width free' ps.
Proof.
  destruct 1 as [|i ps [H1 H2] _]; [reflexivity|]. cbn [leftmost_disjoint].
  apply Nat.leb_le in H1, H2. rewrite H1, H2. reflexivity.
Qed.

Lemma positions_from (P : nat -> bool) (start n : nat) :
  Forall (fun i => (start <= i)%nat) (List.filter P (seq start n)).
Proof.
  apply Forall_forall. intros i Hi.
  apply list_elem_of_In, filter_In in Hi as [Hi _]. apply in_seq in Hi. lia.
Qed.

(** The scan of [re.findall], resumed after the prefix [pre] of the text
    with [skip] characters still covered by the last match, counts the
    positions kept from there on. *)
Lemma findall_from_positions (tag text : string) (rest pre : string) (skip : nat) :
  text = pre +:+ rest ->
  Re.findall_from tag (Str.last_char pre None) skip rest =
    length (leftmost_disjoint (String.length tag) (String.length pre + skip)
              (List.filter (whole_word_at tag text)
                           (seq (String.length pre) (S (String.length rest))))).
Proof.
  revert pre skip. induction rest as [|c r IH]; intros pre skip Ht.
  - cbn [Re.findall_from String.length seq List.filter].
    rewrite match_here_at, <- Ht.
    destruct skip as [|k]; destruct (whole_word_at tag text (String.length pre));
      cbn [leftmost_disjoint length]; try reflexivity.
    + rewrite Nat.add_0_r, Nat.leb_refl. reflexivity.
    + replace (String.length pre + S k <=? String.length pre)%nat with false
        by (symmetry; apply Nat.leb_gt; lia).
      reflexivity.
  - cbn [Re.findall_from String.length]. rewrite <- cons_seq. cbn [List.filter].
    assert (Ht' : text = (pre +:+ String c EmptyString) +:+ r)
      by (rewrite append_assoc_cons; exact Ht).
    assert (Hlen : String.length (pre +:+ String c EmptyString) = S (String.length pre))
      by (rewrite length_append; cbn; lia).
    assert (Hlast : Str.last_char (pre +:+ String c EmptyString) None = Some c)
      by (rewrite last_char_app; reflexivity).
    pose proof (IH (pre +:+ String c EmptyString)) as IH'.
    rewrite Hlen, Hlast in IH'.
    destruct skip as [|k].
    + rewrite match_here_at, <- Ht.
      destruct (whole_word_at tag text (String.length pre)).
      * cbn [leftmost_disjoint]. rewrite Nat.add_0_r, Nat.leb_refl. cbn [length].
        rewrite (IH' _ Ht'). do 3 f_equal. lia.
      * rewrite (IH' _ Ht'). f_equal. apply leftmost_disjoint_free.
        eapply Forall_impl; [apply positions_from|]. cbn. intros; lia.
    + rewrite (IH' _ Ht').
      destruct (whole_word_at tag text (String.length pre)).
      * cbn [leftmost_disjoint].
        replace (String.length pre + S k <=? String.length pre)%nat with false
          by (symmetry; apply Nat.leb_gt; lia).
        do 2 f_equal. lia.
      * do 2 f_equal. lia.
Qed.

(** [re.findall] finds the whole-word occurrences of the tag counted from
    the left without overlap. *)
Lemma findall_count_positions (tag text : string) :
  Re.findall_count tag text = length (counted_occurrences tag text).
Proof.
  unfold Re.findall_count, counted_occurrences, whole_word_positions.
  apply (findall_from_positions tag text text EmptyString 0). reflexivity.
Qed.

(** The occurrences counted are among the whole-word positions; they are
    all of them when the tag cannot overlap itself in the text. *)
Lemma leftmost_disjoint_sublist (width free : nat) (ps : list nat) :
  sublist (leftmost_disjoint width free ps) ps.
Proof.
  revert free. induction ps as [|i ps IH]; intros free; cbn [leftmost_disjoint].
  - constructor.
  - destruct (free <=? i)%nat; [apply sublist_skip | apply sublist_cons]; apply IH.
Qed.

(** ** The allow-list and the scorer *)

Section Leaves.

Variable brackets_ok : string -> bool.

Local Abbreviation netloc := (netloc brackets_ok).
Local Abbreviation same_domain := (same_domain brackets_ok).
Local Abbreviation score := (score brackets_ok).

Lemma priority_weight (h : string) : priority h = weight_of_host h.
Proof.
  unfold priority, weight_of_host, DOMAIN_PRIORITY. cbn [list_to_map foldr uncurry fst snd].
  destruct (String.eqb_spec h "ern.ddex.net") as [->|H1].
  { rewrite lookup_insert_eq. reflexivity. }
  rewrite lookup_insert_ne by congruence.
  destruct (String.eqb_spec h "service.ddex.net") as [->|H2].
  { rewrite lookup_insert_eq. reflexivity. }
  rewrite lookup_insert_ne by congruence.
  destruct (String.eqb_spec h "ddex.net") as [->|H3].
  { rewrite lookup_insert_eq. reflexivity. }
  rewrite lookup_insert_ne by congruence.
  rewrite lookup_empty. reflexivity.
Qed.

Lemma priority_range (h : string) : (0 <= priority h <= 3)%Z.
Proof.
  rewrite priority_weight. unfold weight_of_host.
  repeat match goal with |- context [String.eqb ?a ?b] => destruct (String.eqb a b) end; lia.
Qed.

(** A URL that passes the allow-list has a network location. *)
Lemma same_domain_netloc (url : string) :
  same_domain url = true -> exists nl, netloc url = Some nl.
Proof.
  unfold Ddex.same_domain. destruct (netloc url) as [nl|]; [eauto | discriminate].
Qed.

(** [score] is defined exactly where [urlparse] does not raise. *)
Lemma score_defined (url text tag : string) :
  is_Some (score url text tag) <-> is_Some (netloc url).
Proof.
  unfold Ddex.score. destruct (netloc url); split; intros [x Hx]; eauto; discriminate.
Qed.

(** C4 (as amended): for every URL that [urlparse] parses (every URL the
    crawl scores is one), with [nl] its network location, and for every
    text and tag, the score is 100 times the priority weight of [nl] in
    lower case (0 when it is not one of the three hosts of the table), plus
    20 exactly when the tag is a substring of the URL, letter case apart,
    plus 10 times the number of whole-word occurrences of the tag in the
    text counted from the left without overlap, capped at 5. *)
Theorem score_formula (url text tag nl : string) :
  netloc url = Some nl ->
  let base := (weight_of_host (Str.lower nl) * 100)%Z in
  let words := (10 * Z.min (Z.of_nat (length (counted_occurrences tag text))) 5)%Z in
  (ci_substring tag url /\ score url text tag = Some (base + 20 + words)%Z) \/
  (~ ci_substring tag url /\ score url text tag = Some (base + 0 + words)%Z).
Proof.
  intros Hnl base words. subst base words. unfold Ddex.score, ci_substring.
  rewrite Hnl, priority_weight, findall_count_positions.
  destruct (Str.contains (Str.lower tag) (Str.lower url)) eqn:Hc.
  - left. split; [apply contains_spec; exact Hc|]. f_equal. lia.
  - right. split.
    + rewrite <- contains_spec, Hc. discriminate.
    + f_equal. lia.
Qed.

(** The score lies between 0 and 370, and is at least 10 when the tag
    is found in the text. *)
Lemma score_bounds (url text tag : string) (sc : Z) :
  score url text tag = Some sc ->
  (0 <= sc <= 370)%Z /\ (Re.search tag text = true -> 10 <= sc)%Z.
Proof.
  unfold Ddex.score. destruct (netloc url) as [nl|]; [|discriminate].
  intros [= <-]. pose proof (priority_range (Str.lower nl)) as Hp.
  split.
  - destruct (Str.contains _ _); lia.
  - rewrite search_findall_count. intros Hocc.
    destruct (Str.contains _ _); lia.
Qed.

(** C9: a host that is neither an allowed host nor a subdomain of one
    passes the allow-list, because only the end of the host string is
    compared: [evilddex.net] ends with [ddex.net]; its pages are crawled
    and scored like any other. *)
Theorem same_domain_accepts_foreign_host :
  exists url host,
    netloc url = Some host /\
    same_domain url = true /\
    Forall (fun d => Str.lower host <> d /\
                     Str.endswith ("." +:+ d) (Str.lower host) = false)
           ALLOWED_DOMAINS /\
    score url "the ISRC code" "ISRC" = Some 10%Z.
Proof.
  exists "https://evilddex.net/", "evilddex.net".
  split; [reflexivity|]. split; [reflexivity|]. split.
  - repeat constructor; discriminate.
  - reflexivity.
Qed.

End Leaves.

(** A URL whose brackets do not pair up is not scored: [urlparse] raises
    on it, in [score] as in [same_domain], which answers false. *)
Lemma score_raises_on_unpaired_bracket :
  score Toy.brackets_ok "http://[" "ISRC" "ISRC" = None /\
  same_domain Toy.brackets_ok "http://[" = false.
Proof. split; reflexivity. Qed.

(** C4, as stated, fails twice.  The weight is looked up for the network
    location, not for the host: a URL with userinfo on the host of greatest
    weight passes the allow-list and gets weight 0.  And the occurrences
    are counted without overlap: a tag standing twice as a whole word in
    the text, the two overlapping, counts once. *)
Lemma score_is_not_claimed_score :
  (netloc Toy.brackets_ok "https://user@ern.ddex.net/x" = Some "user@ern.ddex.net" /\
   same_domain Toy.brackets_ok "https://user@ern.ddex.net/x" = true /\
   hostname "user@ern.ddex.net" = "ern.ddex.net" /\
   score Toy.brackets_ok "https://user@ern.ddex.net/x" "ISRC" "ISRC" = Some 10%Z /\
   claimed_score "user@ern.ddex.net" "https://user@ern.ddex.net/x" "ISRC" "ISRC" = 310%Z) /\
  (netloc Toy.brackets_ok "https://ddex.net/" = Some "ddex.net" /\
   same_domain Toy.brackets_ok "https://ddex.net/" = true /\
   whole_word_positions "a-a" "a-a-a" = [0; 2]%nat /\
   score Toy.brackets_ok "https://ddex.net/" "a-a-a" "a-a" = Some 110%Z /\
   claimed_score "ddex.net" "https://ddex.net/" "a-a-a" "a-a" = 120%Z).
Proof. repeat split. Qed.

Lemma score_formula_witness :
  (ci_substring "ISRC" Toy.leaf /\
   score Toy.brackets_ok Toy.leaf "ISRC, ISRC and ISRC" "ISRC" = Some (300 + 20 + 30)%Z) \/
  (~ ci_substring "ISRC" Toy.leaf /\
   score Toy.brackets_ok Toy.leaf "ISRC, ISRC and ISRC" "ISRC" = Some (300 + 0 + 30)%Z).
Proof.
  exact (score_formula Toy.brackets_ok Toy.leaf "ISRC, ISRC and ISRC" "ISRC"
           "ern.ddex.net" eq_refl).
Defined.

(** ** The liveness check and the reconciliation loop *)

Section Liveness.

Variable World : Type.
Variable send : request -> World -> option response * World.

Local Abbreviation http := (http send).
Local Abbreviation check_url_alive := (check_url_alive send).
Local Abbreviation reconcile_entry := (reconcile_entry send).
Local Abbreviation reconcile := (reconcile send).

Lemma http_sent (rq : request) (n : net World) :
  sent (snd (http rq n)) = sent n ++ [rq].
Proof. unfold Ddex.http. destruct (send rq (world n)); reflexivity. Qed.

Lemma alive_status_spec (st : Z) :
  alive_status st = true <-> st = 200%Z \/ st = 301%Z \/ st = 302%Z.
Proof. unfold alive_status. rewrite !orb_true_iff, !Z.eqb_eq. tauto. Qed.

(** The requests a check sends: none when the guard fails, else the HEAD,
    followed by the GET after a 405 only. *)
Lemma check_url_alive_requests (url : string) (n : net World) :
  sent (snd (check_url_alive url n)) =
    sent n ++
    (if Str.nonempty url && Str.startswith "http" url then
       HEAD url CHECK_TIMEOUT ::
       match fst (http (HEAD url CHECK_TIMEOUT) n) with
       | Some r => if (status_code r =? 405)%Z then [GET url CHECK_TIMEOUT] else []
       | None => []
       end
     else []).
Proof.
  unfold Ddex.check_url_alive. rewrite <- negb_andb.
  destruct (Str.nonempty url && Str.startswith "http" url); cbn [negb].
  2:{ cbn [snd]. rewrite app_nil_r. reflexivity. }
  pose proof (http_sent (HEAD url CHECK_TIMEOUT) n) as Hs1.
  destruct (http (HEAD url CHECK_TIMEOUT) n) as [[r|] n1]; cbn [fst snd] in *;
    [|exact Hs1].
  destruct (alive_status (status_code r)) eqn:Ha.
  { apply alive_status_spec in Ha. cbn [snd]. rewrite Hs1.
    replace (status_code r =? 405)%Z with false; [reflexivity|].
    symmetry. apply Z.eqb_neq. lia. }
  destruct (status_code r =? 405)%Z; [|exact Hs1].
  pose proof (http_sent (GET url CHECK_TIMEOUT) n1) as Hs2.
  destruct (http (GET url CHECK_TIMEOUT) n1) as [[r2|] n2]; cbn [snd] in *;
    rewrite Hs2, Hs1, <- app_assoc; reflexivity.
Qed.

(** C7: the check answers true exactly when the URL is non-empty, starts
    with [http], and either the HEAD request comes back with status 200,
    301 or 302, or it comes back with 405 and the GET request sent next
    comes back with 200; a request that raises counts as a failure.  On
    an empty URL or one that does not start with [http] the answer is
    false and nothing is sent.  The requests sent are the HEAD and, after
    a 405 only, the GET. *)
Theorem check_url_alive_spec (url : string) (n : net World) :
  let guard := Str.nonempty url && Str.startswith "http" url in
  let head := http (HEAD url CHECK_TIMEOUT) n in
  let get := http (GET url CHECK_TIMEOUT) (snd head) in
  (fst (check_url_alive url n) = true <->
     guard = true /\
     exists r, fst head = Some r /\
       (status_code r = 200 \/ status_code r = 301 \/ status_code r = 302 \/
        (status_code r = 405 /\
         exists r2, fst get = Some r2 /\ status_code r2 = 200))%Z)
  /\ (guard = false -> check_url_alive url n = (false, n))
  /\ sent (snd (check_url_alive url n)) =
       sent n ++
       (if guard then
          HEAD url CHECK_TIMEOUT ::
          match fst head with
          | Some r => if (status_code r =? 405)%Z then [GET url CHECK_TIMEOUT] else []
          | None => []
          end
        else []).
Proof.
  intros guard head get.
  split; [|split; [|apply check_url_alive_requests]];
    unfold Ddex.check_url_alive; rewrite <- negb_andb; fold guard.
  2:{ intros ->. reflexivity. }
  destruct guard eqn:Hg; cbn [negb].
  2:{ cbn [fst]. split; [discriminate | intros [H _]; discriminate]. }
  fold head. subst get. destruct head as [[r|] n1]; cbn [fst snd].
  2:{ split; [discriminate | intros [_ [r [H _]]]; discriminate]. }
  destruct (alive_status (status_code r)) eqn:Ha.
  { apply alive_status_spec in Ha. cbn [fst]. split; [|reflexivity].
    intros _. split; [reflexivity|]. exists r. split; [reflexivity | tauto]. }
  assert (Hna : ~ (status_code r = 200 \/ status_code r = 301 \/ status_code r = 302)%Z).
  { rewrite <- alive_status_spec, Ha. discriminate. }
  destruct (Z.eqb_spec (status_code r) 405) as [H405|H405].
  2:{ cbn [fst]. split; [discriminate|]. intros [_ [r' [[= <-] H]]]. exfalso. tauto. }
  destruct (http (GET url CHECK_TIMEOUT) n1) as [[r2|] n2]; cbn [fst].
  - rewrite Z.eqb_eq. split.
    + intros H200. split; [reflexivity|]. exists r. split; [reflexivity|].
      right; right; right. split; [exact H405|]. exists r2. tauto.
    + intros [_ [r' [[= <-] H]]].
      destruct H as [H|[H|[H|[_ [r2' [[= <-] H]]]]]]; [exfalso; tauto ..|exact H].
  - split; [discriminate|]. intros [_ [r' [[= <-] H]]].
    destruct H as [H|[H|[H|[_ [r2' [[=] _]]]]]]; exfalso; tauto.
Qed.

(** The check is run on every URL that starts with the placeholder
    prefix: such a URL is not empty and starts with [http]. *)
Lemma placeholder_passes_guard (url : string) :
  Str.startswith PLACEHOLDER_PREFIX url = true ->
  Str.nonempty url && Str.startswith "http" url = true.
Proof.
  rewrite startswith_spec. intros [r ->]. reflexivity.
Qed.

(** One entry whose final URL is its own stripped value. *)
Lemma reconcile_entry_old (scraped : gmap string string) (k : string) (v : json)
    (n : net World) :
  old_value v <> EmptyString ->
  (Str.startswith PLACEHOLDER_PREFIX (old_value v) = false \/ scraped !! k = None) ->
  reconcile_entry scraped k v n =
    (if fst (check_url_alive (old_value v) n) then old_value v else EmptyString,
     snd (check_url_alive (old_value v) n)).
Proof.
  intros Hne Hcase. unfold Ddex.reconcile_entry.
  assert (Hfinal : match scraped !! k with
                   | Some u => if Str.startswith PLACEHOLDER_PREFIX (old_value v)
                                  && Str.nonempty u then u else old_value v
                   | None => old_value v
                   end = old_value v).
  { destruct Hcase as [H|H]; rewrite H; [|reflexivity].
    destruct (scraped !! k); reflexivity. }
  rewrite Hfinal. apply nonempty_true in Hne. rewrite Hne.
  destruct (check_url_alive (old_value v) n); reflexivity.
Qed.

Lemma reconcile_app (scraped : gmap string string) (a b : list (string * json))
    (updated : gmap string string) (n : net World) :
  reconcile scraped (a ++ b) updated n =
    reconcile scraped b (fst (reconcile scraped a updated n))
                        (snd (reconcile scraped a updated n)).
Proof.
  revert updated n. induction a as [|[k v] a IH]; intros updated n; [reflexivity|].
  cbn [app Ddex.reconcile]. destruct (reconcile_entry scraped k v n) as [f n'].
  apply IH.
Qed.

(** The network after the loop does not depend on the dictionary being
    filled. *)
Lemma reconcile_network (scraped : gmap string string) (data : list (string * json))
    (u1 u2 : gmap string string) (n : net World) :
  snd (reconcile scraped data u1 n) = snd (reconcile scraped data u2 n).
Proof.
  revert u1 u2 n. induction data as [|[k v] data IH]; intros u1 u2 n; [reflexivity|].
  cbn [Ddex.reconcile]. destruct (reconcile_entry scraped k v n) as [f n'].
  apply IH.
Qed.

(** A key the loop does not meet keeps its value. *)
Lemma reconcile_lookup_other (scraped : gmap string string) (data : list (string * json))
    (updated : gmap string string) (n : net World) (k : string) :
  k ∉ map fst data ->
  fst (reconcile scraped data updated n) !! k = updated !! k.
Proof.
  revert updated n. induction data as [|[k' v] data IH]; intros updated n Hk; [reflexivity|].
  cbn [Ddex.reconcile]. destruct (reconcile_entry scraped k' v n) as [f n'].
  cbn [map fst] in Hk. apply not_elem_of_cons in Hk as [Hne Hk].
  rewrite IH by exact Hk. apply lookup_insert_ne. congruence.
Qed.

(** The value written for an entry, when its key does not occur again
    later ([data] comes from a dictionary, whose keys are distinct). *)
Lemma reconcile_lookup (scraped : gmap string string) (pre post : list (string * json))
    (k : string) (v : json) (n : net World) :
  k ∉ map fst post ->
  fst (reconcile scraped (pre ++ (k, v) :: post) ∅ n) !! k =
    Some (fst (reconcile_entry scraped k v (snd (reconcile scraped pre ∅ n)))).
Proof.
  intros Hk. rewrite reconcile_app. cbn [Ddex.reconcile].
  destruct (reconcile_entry scraped k v _) as [f n'].
  rewrite reconcile_lookup_other by exact Hk.
  cbn [fst]. apply lookup_insert_eq.
Qed.

(** C1: a tag whose stripped value is neither empty nor a placeholder
    gets that value when the liveness check, run on it when the loop
    reaches the tag, answers alive, and the empty string otherwise;
    whatever the crawl found for the tag is not used. *)
Theorem reconcile_keeps_fixed_url (scraped : gmap string string)
    (pre post : list (string * json)) (k : string) (v : json) (n : net World) :
  k ∉ map fst post ->
  old_value v <> EmptyString ->
  Str.startswith PLACEHOLDER_PREFIX (old_value v) = false ->
  fst (reconcile scraped (pre ++ (k, v) :: post) ∅ n) !! k =
    Some (if fst (check_url_alive (old_value v) (snd (reconcile scraped pre ∅ n)))
          then old_value v else EmptyString).
Proof.
  intros Hk Hne Hph. rewrite reconcile_lookup by exact Hk.
  rewrite reconcile_entry_old by auto. reflexivity.
Qed.

(** C2 (as amended): a tag without a crawl result whose stripped value
    starts with the placeholder prefix goes through the liveness check
    like any other non-empty URL: a HEAD request for the placeholder is
    sent, and the tag gets the placeholder when the check answers alive,
    the empty string otherwise. *)
Theorem reconcile_checks_placeholder (scraped : gmap string string)
    (pre post : list (string * json)) (k : string) (v : json) (n : net World) :
  k ∉ map fst post ->
  scraped !! k = None ->
  Str.startswith PLACEHOLDER_PREFIX (old_value v) = true ->
  let before := snd (reconcile scraped pre ∅ n) in
  fst (reconcile scraped (pre ++ (k, v) :: post) ∅ n) !! k =
    Some (if fst (check_url_alive (old_value v) before)
          then old_value v else EmptyString)
  /\ exists more,
       sent (snd (reconcile scraped (pre ++ [(k, v)]) ∅ n)) =
         sent before ++ HEAD (old_value v) CHECK_TIMEOUT :: more.
Proof.
  intros Hk Hnone Hph before.
  assert (Hne : old_value v <> EmptyString).
  { apply placeholder_passes_guard, andb_true_iff in Hph as [Hph _].
    apply nonempty_true. exact Hph. }
  split.
  - rewrite reconcile_lookup by exact Hk.
    rewrite reconcile_entry_old by auto. reflexivity.
  - rewrite reconcile_app. cbn [Ddex.reconcile]. fold before.
    rewrite (reconcile_entry_old scraped k v before) by auto. cbn [snd].
    pose proof (check_url_alive_requests (old_value v) before) as Hsent.
    rewrite placeholder_passes_guard in Hsent by exact Hph.
    eexists. exact Hsent.
Qed.

End Liveness.

Lemma reconcile_keeps_fixed_url_witness :
  fst (reconcile Toy.send {["Foo" := Toy.root]}
         [("ISRC", JStr Toy.placeholder); ("Foo", JStr " https://ern.ddex.net/isrc ")]
         ∅ Toy.n0) !! "Foo" = Some Toy.leaf.
Proof.
  exact (reconcile_keeps_fixed_url nat Toy.send {["Foo" := Toy.root]} [("ISRC", JStr Toy.placeholder)] []
           "Foo" (JStr " https://ern.ddex.net/isrc ") Toy.n0
           ltac:(cbn; apply not_elem_of_nil) ltac:(discriminate) eq_refl).
Defined.

(** C2, as stated, fails: the placeholder of a tag the crawl found nothing
    for is checked (a HEAD request is sent for it), and when it is alive it
    is the output value, not the empty string. *)
Lemma placeholder_without_candidate_is_checked :
  let scraped : gmap string string := ∅ in
  let out := reconcile Toy.send scraped [("ISRC", JStr Toy.placeholder)] ∅ Toy.n0 in
  scraped !! "ISRC" = None /\
  Str.startswith PLACEHOLDER_PREFIX (old_value (JStr Toy.placeholder)) = true /\
  fst out !! "ISRC" = Some Toy.placeholder /\
  sent (snd out) = [HEAD Toy.placeholder CHECK_TIMEOUT].
Proof. repeat split. Qed.

Lemma reconcile_checks_placeholder_witness :
  let out := reconcile Toy.send ∅ [("ISRC", JStr "https://ddex.net/docs/none")] ∅ Toy.n0 in
  fst out !! "ISRC" = Some EmptyString
  /\ exists more, sent (snd out) = HEAD "https://ddex.net/docs/none" CHECK_TIMEOUT :: more.
Proof.
  exact (reconcile_checks_placeholder nat Toy.send ∅ [] [] "ISRC"
           (JStr "https://ddex.net/docs/none") Toy.n0
           ltac:(cbn; apply not_elem_of_nil) eq_refl eq_refl).
Defined.

(** ** The crawl *)

Section Crawl.

Variable brackets_ok : string -> bool.
Variable urljoin_defrag : string -> string -> option string.
Variable soup_raises : string -> bool.
Variable soup_hrefs : string -> list string.
Variable soup_texts : string -> list string.
Variable World : Type.
Variable send : request -> World -> option response * World.

Local Abbreviation netloc := (netloc brackets_ok).
Local Abbreviation same_domain := (same_domain brackets_ok).
Local Abbreviation score := (score brackets_ok).
Local Abbreviation score_tags := (score_tags brackets_ok).
Local Abbreviation extract_links :=
  (extract_links brackets_ok urljoin_defrag soup_raises soup_hrefs soup_texts).
Local Abbreviation crawl_step :=
  (crawl_step brackets_ok urljoin_defrag soup_raises soup_hrefs soup_texts World send).
Local Abbreviation crawl_loop :=
  (crawl_loop brackets_ok urljoin_defrag soup_raises soup_hrefs soup_texts World send).
Local Abbreviation crawl :=
  (crawl brackets_ok urljoin_defrag soup_raises soup_hrefs soup_texts World send).
Local Abbreviation depth_bounded := (@depth_bounded World).
Local Abbreviation bfs_ordered := (@bfs_ordered World).
Local Abbreviation table_first_max := (@table_first_max World).
Local Abbreviation table_sound := (@table_sound brackets_ok World).
Local Abbreviation scored_sound := (@scored_sound brackets_ok World).
Local Abbreviation reachable :=
  (reachable brackets_ok urljoin_defrag soup_raises soup_hrefs soup_texts World send).
Local Abbreviation iteration :=
  (iteration brackets_ok urljoin_defrag soup_raises soup_hrefs soup_texts World send).
Local Abbreviation parser_raises_at := (parser_raises_at brackets_ok soup_raises World send).

Lemma crawl_step_iteration (tags : list string) (s s' : crawl_state World) :
  crawl_step tags s = Continue s' -> iteration tags s s'.
Proof.
  unfold Ddex.crawl_step.
  destruct (queue s) as [|[url depth] q] eqn:Hq; [discriminate|].
  destruct (pages s <? MAX_PAGES)%nat eqn:Hp; cbn [negb]; [|discriminate].
  apply Nat.ltb_lt in Hp.
  destruct (bool_decide (url ∈ visited s)) eqn:Hv; cbn [orb].
  { intros [= <-]. apply bool_decide_eq_true in Hv.
    eapply iter_discard; eauto. }
  apply bool_decide_eq_false in Hv.
  destruct (same_domain url) eqn:Hd; cbn [negb].
  2:{ intros [= <-]. eapply iter_discard; eauto. }
  destruct (fetch send url (network s)) as [html n'] eqn:Hf.
  destruct html as [[|c h]|].
  - intros [= <-]. eapply iter_unusable; eauto.
  - destruct (extract_links url (String c h)) as [[links text]|] eqn:He; [|discriminate].
    destruct (score_tags url text tags (best_for_tag s) (scored s)) as [[best hist]|] eqn:Hs;
      [|discriminate].
    intros [= <-]. eapply iter_page; eauto; discriminate.
  - intros [= <-]. eapply iter_unusable; eauto.
Qed.

(** Conversely, each of the three cases is an iteration of the loop. *)
Lemma iteration_crawl_step (tags : list string) (s s' : crawl_state World) :
  iteration tags s s' -> crawl_step tags s = Continue s'.
Proof.
  intros Hit. unfold Ddex.crawl_step.
  destruct Hit as [url depth q Hq Hp Hskip
                  |url depth q html n' Hq Hp Hv Hd Hf Hhtml
                  |url depth q page n' links text best hist Hq Hp Hv Hd Hf Hne He Hsc];
    rewrite Hq; apply Nat.ltb_lt in Hp; rewrite Hp; cbn [negb].
  - destruct Hskip as [Hin|Hd].
    + rewrite (bool_decide_eq_true_2 _ Hin). reflexivity.
    + rewrite Hd, orb_true_r. reflexivity.
  - rewrite (bool_decide_eq_false_2 _ Hv), Hd, Hf. cbn [negb orb].
    destruct Hhtml as [->| ->]; reflexivity.
  - rewrite (bool_decide_eq_false_2 _ Hv), Hd, Hf. cbn [negb orb].
    destruct page as [|c h]; [congruence|]. rewrite He, Hsc. reflexivity.
Qed.

(** *** The scoring loop *)

Lemma update_best_lookup (t : string) (sc : Z) (url : string)
    (best : gmap string (Z * string)) (t' : string) :
  update_best t sc url best !! t' =
    if decide (t = t') then
      Some (match best !! t with
            | None => (sc, url)
            | Some (b, u0) => if (sc >? b)%Z then (sc, url) else (b, u0)
            end)
    else best !! t'.
Proof.
  unfold update_best. destruct (decide (t = t')) as [<-|Hne].
  - destruct (best !! t) as [[b u0]|] eqn:Hb.
    + destruct (sc >? b)%Z; [apply lookup_insert_eq | exact Hb].
    + apply lookup_insert_eq.
  - destruct (best !! t) as [[b u0]|].
    + destruct (sc >? b)%Z; [apply lookup_insert_ne; exact Hne | reflexivity].
    + apply lookup_insert_ne; exact Hne.
Qed.

Lemma events_for_app (t : string) (h1 h2 : list (string * Z * string)) :
  events_for t (h1 ++ h2) = events_for t h1 ++ events_for t h2.
Proof. unfold events_for. rewrite List.filter_app, map_app. reflexivity. Qed.

Lemma events_for_one (t t' : string) (sc : Z) (u : string) :
  events_for t [(t', sc, u)] = if decide (t' = t) then [(sc, u)] else [].
Proof.
  unfold events_for. cbn [List.filter fst snd].
  destruct (String.eqb_spec t' t); destruct (decide (t' = t)); congruence || reflexivity.
Qed.

(** Scoring one more page keeps the table's entry the first maximum. *)
Lemma is_first_max_snoc (l : list (Z * string)) (e : option (Z * string))
    (sc : Z) (u : string) :
  is_first_max l e ->
  is_first_max (l ++ [(sc, u)])
    (Some (match e with
           | None => (sc, u)
           | Some (b, u0) => if (sc >? b)%Z then (sc, u) else (b, u0)
           end)).
Proof.
  destruct e as [[b u0]|]; cbn [is_first_max].
  - intros (l1 & l2 & -> & H1 & H2).
    destruct (Z.gtb_spec sc b) as [Hgt|Hle].
    + exists (l1 ++ (b, u0) :: l2), []. split; [reflexivity|]. split; [|constructor].
      apply Forall_app. split; [|constructor].
      * eapply Forall_impl; [exact H1|]. cbn. intros; lia.
      * cbn. lia.
      * eapply Forall_impl; [exact H2|]. cbn. intros; lia.
    + exists l1, (l2 ++ [(sc, u)]). split; [|split].
      * rewrite <- app_assoc. reflexivity.
      * exact H1.
      * apply Forall_app. split; [exact H2|]. repeat constructor. cbn. lia.
  - intros ->. exists [], []. repeat split; constructor.
Qed.

Lemma score_tags_defined (url text : string) (tags : list string)
    (best : gmap string (Z * string)) (hist : list (string * Z * string)) :
  is_Some (netloc url) -> is_Some (score_tags url text tags best hist).
Proof.
  intros Hnl. revert best hist.
  induction tags as [|t tags IH]; intros best hist; cbn [Ddex.score_tags]; [eauto|].
  destruct (Re.search t text); [|apply IH].
  apply (score_defined brackets_ok url text t) in Hnl as [sc ->]. apply IH.
Qed.

Lemma score_tags_first_max (url text : string) (tags : list string)
    (best best' : gmap string (Z * string)) (hist hist' : list (string * Z * string)) :
  (forall t, is_first_max (events_for t hist) (best !! t)) ->
  score_tags url text tags best hist = Some (best', hist') ->
  forall t, is_first_max (events_for t hist') (best' !! t).
Proof.
  revert best hist.
  induction tags as [|t0 tags IH]; intros best hist Hinv; cbn [Ddex.score_tags].
  - intros [= <- <-]. exact Hinv.
  - destruct (Re.search t0 text); [|apply IH; exact Hinv].
    destruct (score url text t0) as [sc|]; [|discriminate].
    apply IH. intros t. rewrite update_best_lookup, events_for_app, events_for_one.
    destruct (decide (t0 = t)) as [<-|Hne].
    + apply is_first_max_snoc, Hinv.
    + rewrite app_nil_r. apply Hinv.
Qed.

(** An entry after the scoring loop was there before, or is the page
    just scored, with a score of at least 10. *)
Lemma score_tags_entries (url text : string) (tags : list string)
    (best best' : gmap string (Z * string)) (hist hist' : list (string * Z * string)) :
  score_tags url text tags best hist = Some (best', hist') ->
  forall t sc u, best' !! t = Some (sc, u) ->
    best !! t = Some (sc, u) \/ (u = url /\ (10 <= sc)%Z).
Proof.
  revert best hist.
  induction tags as [|t0 tags IH]; intros best hist; cbn [Ddex.score_tags].
  - intros [= <- <-]. auto.
  - destruct (Re.search t0 text) eqn:Hsearch; [|apply IH].
    destruct (score url text t0) as [sc0|] eqn:Hsc; [|discriminate].
    intros Hrest t sc u Hlook.
    destruct (IH _ _ Hrest t sc u Hlook) as [Hold|Hnew]; [|auto].
    rewrite update_best_lookup in Hold.
    destruct (decide (t0 = t)) as [<-|Hne]; [|auto].
    destruct (score_bounds brackets_ok _ _ _ _ Hsc) as [_ H10].
    specialize (H10 Hsearch).
    destruct (best !! t0) as [[b u0]|].
    + destruct (sc0 >? b)%Z; injection Hold as <- <-; auto.
    + injection Hold as <- <-; auto.
Qed.

(** An entry is replaced only by a strictly greater score. *)
Lemma score_tags_monotone (url text : string) (tags : list string)
    (best best' : gmap string (Z * string)) (hist hist' : list (string * Z * string)) :
  score_tags url text tags best hist = Some (best', hist') ->
  forall t b u0, best !! t = Some (b, u0) ->
    exists b' u', best' !! t = Some (b', u') /\
      ((b', u') = (b, u0) \/ (b < b')%Z).
Proof.
  revert best hist.
  induction tags as [|t0 tags IH]; intros best hist; cbn [Ddex.score_tags].
  - intros [= <- <-]. eauto.
  - destruct (Re.search t0 text); [|apply IH].
    destruct (score url text t0) as [sc0|]; [|discriminate].
    intros Hrest t b u0 Hlook.
    assert (Hmid : exists b1 u1, update_best t0 sc0 url best !! t = Some (b1, u1) /\
                     ((b1, u1) = (b, u0) \/ (b < b1)%Z)).
    { rewrite update_best_lookup. destruct (decide (t0 = t)) as [<-|Hne]; [|eauto].
      rewrite Hlook. destruct (Z.gtb_spec sc0 b); eauto. }
    destruct Hmid as (b1 & u1 & Hl1 & Hrel).
    destruct (IH _ _ Hrest t b1 u1 Hl1) as (b' & u' & Hl' & Hrel').
    exists b', u'. split; [exact Hl'|].
    destruct Hrel as [[= -> ->]|Hlt]; [exact Hrel'|].
    right. destruct Hrel' as [[= -> ->]|Hlt']; lia.
Qed.

(** *** Invariants of the loop *)

(** Induction over the states of a crawl, iteration by iteration. *)
Lemma reachable_invariant (tags : list string) (n : net World)
    (P : crawl_state World -> Prop) :
  P (crawl_init n) ->
  (forall s s', reachable tags n s -> P s -> iteration tags s s' -> P s') ->
  forall s, reachable tags n s -> P s.
Proof.
  intros Hinit Hstep s Hr. induction Hr as [|s s' Hr IH Hs]; [exact Hinit|].
  eapply Hstep; eauto. apply crawl_step_iteration. exact Hs.
Qed.

Lemma children_depth (seen : gset string) (depth : nat) (links : list string) :
  Forall (fun x => snd x = S depth /\ (depth < MAX_DEPTH)%nat) (children seen depth links).
Proof.
  unfold children. destruct (Nat.ltb_spec depth MAX_DEPTH) as [Hlt|Hge]; [|constructor].
  apply Forall_map, Forall_forall. intros u _. cbn. auto.
Qed.

(** The seeds are distinct: the crawl starts with all three, at depth 0. *)
Lemma crawl_init_queue (n : net World) :
  queue (crawl_init n) =
    [ ("https://ern.ddex.net/", 0%nat);
      ("https://service.ddex.net/dd/ERN38/", 0%nat);
      ("https://ddex.net/standards/", 0%nat) ].
Proof. vm_compute. reflexivity. Qed.

Lemma depth_bounded_init (n : net World) : depth_bounded (crawl_init n).
Proof.
  unfold Ddex.depth_bounded. rewrite crawl_init_queue. cbn. unfold MAX_DEPTH.
  repeat split; repeat (constructor; [cbn; lia|]); constructor.
Qed.

Lemma depth_bounded_step (tags : list string) (s s' : crawl_state World) :
  depth_bounded s -> iteration tags s s' -> depth_bounded s'.
Proof.
  intros (Hq & Hd & Hp) Hit.
  destruct Hit as [url depth q Hqs _ _
                  |url depth q html n' Hqs _ _ _ _ _
                  |url depth q page n' links text best hist Hqs _ _ _ _ _ _ _];
    rewrite Hqs in Hq; apply Forall_cons in Hq as [Hhd Hq]; cbn in Hhd;
    unfold depth_bounded; cbn [queue dequeued printed].
  - repeat split; auto. apply Forall_app; split; auto.
  - repeat split; auto; apply Forall_app; split; auto.
  - repeat split.
    + apply Forall_app; split; [exact Hq|].
      eapply Forall_impl; [apply children_depth|]. cbn. intros x [-> Hlt]. lia.
    + apply Forall_app; split; auto.
    + apply Forall_app; split; auto.
Qed.

(** C5: in every state of a crawl, every item of the queue has a depth
    of at most [MAX_DEPTH]; so has every item dequeued so far and every
    page fetched so far (a progress line is printed for each fetch). *)
Theorem crawl_depth_bound (tags : list string) (n : net World) (s : crawl_state World) :
  reachable tags n s ->
  Forall (fun x => (snd x <= MAX_DEPTH)%nat) (queue s) /\
  Forall (fun x => (snd x <= MAX_DEPTH)%nat) (dequeued s) /\
  Forall (fun x => (fst (fst x) <= MAX_DEPTH)%nat) (printed s).
Proof.
  revert s. apply reachable_invariant with (P := depth_bounded).
  - apply depth_bounded_init.
  - intros s s' _. apply depth_bounded_step.
Qed.

(** *** Breadth-first order *)

Lemma StronglySorted_all_equal (d : nat) (l : list nat) :
  Forall (fun x => x = d) l -> StronglySorted le l.
Proof.
  induction 1 as [|x l -> Hl IH]; constructor; [exact IH|].
  eapply Forall_impl; [exact Hl|]. cbn. intros; lia.
Qed.

Lemma StronglySorted_sublist (l1 l2 : list nat) :
  sublist l1 l2 -> StronglySorted le l2 -> StronglySorted le l1.
Proof.
  induction 1 as [|x l1 l2 Hsub IH|x l1 l2 Hsub IH]; intros Hs.
  - constructor.
  - apply StronglySorted_inv in Hs as [Hs Hall]. constructor; [auto|].
    rewrite Forall_forall in Hall. apply Forall_forall. intros y Hy.
    apply Hall. eapply elem_of_sublist; [exact Hy | exact Hsub].
  - apply StronglySorted_inv in Hs as [Hs _]. auto.
Qed.

(** In a sorted list, no element stands before a smaller one. *)
Lemma StronglySorted_lookup_lt {A : Type} (f : A -> nat) (l : list A) (i j : nat) (x y : A) :
  StronglySorted le (map f l) ->
  l !! i = Some x -> l !! j = Some y -> (f x < f y)%nat -> (i < j)%nat.
Proof.
  revert i j. induction l as [|a l IH]; intros i j Hs Hi Hj Hlt; [discriminate|].
  cbn [map] in Hs. apply StronglySorted_inv in Hs as [Hs Hall].
  destruct i as [|i], j as [|j]; cbn in Hi, Hj.
  - injection Hi as ->. injection Hj as ->. lia.
  - lia.
  - injection Hj as ->. exfalso.
    apply list_elem_of_lookup_2, (list_elem_of_fmap_2 f) in Hi.
    rewrite Forall_forall in Hall. apply Hall in Hi. lia.
  - specialize (IH i j Hs Hi Hj Hlt). lia.
Qed.

Lemma children_depths (seen : gset string) (depth : nat) (links : list string) :
  Forall (fun x => x = S depth) (map snd (children seen depth links)).
Proof.
  apply Forall_map. eapply Forall_impl; [apply children_depth|]. cbn. tauto.
Qed.

Lemma bfs_ordered_init (n : net World) : bfs_ordered (crawl_init n).
Proof.
  unfold Ddex.bfs_ordered. rewrite crawl_init_queue. cbn. split; [|split].
  - repeat constructor.
  - intros x y Hx Hy.
    repeat (apply elem_of_cons in Hx as [->|Hx]; [lia|]).
    apply elem_of_nil in Hx. contradiction.
  - constructor.
Qed.

Lemma bfs_ordered_step (tags : list string) (s s' : crawl_state World) :
  bfs_ordered s -> iteration tags s s' -> bfs_ordered s'.
Proof.
  intros (Hs & Hgap & Hsub) Hit.
  destruct Hit as [url depth q Hqs _ _
                  |url depth q html n' Hqs _ _ _ _ _
                  |url depth q page n' links text best hist Hqs _ _ _ _ _ _ _];
    rewrite Hqs in Hs, Hgap; cbn [map snd] in Hs, Hgap;
    unfold Ddex.bfs_ordered; cbn [queue dequeued printed];
    rewrite ?map_app; cbn [map snd fst].
  - split; [|split].
    + rewrite <- app_assoc. exact Hs.
    + intros x y Hx Hy. apply Hgap; apply list_elem_of_further; assumption.
    + apply sublist_inserts_r. exact Hsub.
  - split; [|split].
    + rewrite <- app_assoc. exact Hs.
    + intros x y Hx Hy. apply Hgap; apply list_elem_of_further; assumption.
    + apply sublist_app; [exact Hsub | reflexivity].
  - pose proof (children_depths ({[url]} ∪ visited s) depth links) as Hc.
    rewrite Forall_forall in Hc.
    assert (Hhead : forall y, y ∈ map snd q -> (depth <= y)%nat).
    { intros y Hy. apply StronglySorted_app_1_r, StronglySorted_inv in Hs as [_ Hall].
      rewrite Forall_forall in Hall. apply Hall. exact Hy. }
    split; [|split].
    + rewrite <- app_assoc. cbn [app].
      change (depth :: map snd q ++ ?c) with ((depth :: map snd q) ++ c).
      rewrite app_assoc. apply StronglySorted_app_2.
      * intros x1 x2 Hx1 Hx2. apply Hc in Hx2 as ->.
        apply elem_of_app in Hx1 as [Hx1|Hx1].
        -- pose proof (StronglySorted_app_1_elem_of _ _ _ x1 depth Hs Hx1
                         (list_elem_of_here _ _)). lia.
        -- apply Hgap; [exact Hx1 | apply list_elem_of_here].
      * exact Hs.
      * eapply StronglySorted_all_equal. apply Forall_forall. exact Hc.
    + intros x y Hx Hy.
      apply elem_of_app in Hx as [Hx|Hx]; apply elem_of_app in Hy as [Hy|Hy].
      * apply Hgap; apply list_elem_of_further; assumption.
      * apply Hc in Hy as ->.
        pose proof (Hgap x depth (list_elem_of_further _ _ _ Hx) (list_elem_of_here _ _)). lia.
      * apply Hc in Hx as ->. specialize (Hhead y Hy). lia.
      * apply Hc in Hx as ->. apply Hc in Hy as ->. lia.
    + apply sublist_app; [exact Hsub | reflexivity].
Qed.

(** C6: in every state of a crawl, the depths of the items dequeued so
    far, in the order they were dequeued, never decrease, and neither do
    the depths of the pages fetched so far; so an item (a page) of smaller
    depth was dequeued (fetched) before any item (page) of greater depth. *)
Theorem crawl_breadth_first (tags : list string) (n : net World) (s : crawl_state World) :
  reachable tags n s ->
  StronglySorted le (map snd (dequeued s)) /\
  StronglySorted le (map (fun p => fst (fst p)) (printed s)) /\
  (forall i j x y, dequeued s !! i = Some x -> dequeued s !! j = Some y ->
     (snd x < snd y)%nat -> (i < j)%nat) /\
  (forall i j x y, printed s !! i = Some x -> printed s !! j = Some y ->
     (fst (fst x) < fst (fst y))%nat -> (i < j)%nat).
Proof.
  intros Hr.
  assert (Hinv : bfs_ordered s).
  { revert s Hr. apply reachable_invariant.
    - apply bfs_ordered_init.
    - intros s s' _. apply bfs_ordered_step. }
  destruct Hinv as (Hs & _ & Hsub).
  apply StronglySorted_app_1_l in Hs.
  pose proof (StronglySorted_sublist _ _ Hsub Hs) as Hp.
  split; [exact Hs|]. split; [exact Hp|]. split.
  - intros i j x y. apply StronglySorted_lookup_lt. exact Hs.
  - intros i j x y. apply (StronglySorted_lookup_lt (fun p => fst (fst p))). exact Hp.
Qed.

(** *** The best-score table *)

Lemma table_first_max_step (tags : list string) (s s' : crawl_state World) :
  table_first_max s -> iteration tags s s' -> table_first_max s'.
Proof.
  intros Hinv Hit.
  destruct Hit as [url depth q _ _ _
                  |url depth q html n' _ _ _ _ _ _
                  |url depth q page n' links text best hist _ _ _ _ _ _ _ Hsc];
    unfold Ddex.table_first_max; cbn [best_for_tag scored]; try exact Hinv.
  eapply score_tags_first_max; [exact Hinv | exact Hsc].
Qed.

(** C3: in every state of a crawl, the entry of each tag is the first
    maximum of the pages scored for the tag so far (no entry when there is
    none): no scored page has a greater score, and every page scored before
    it has a strictly smaller one.  An iteration leaves an entry as it is
    or replaces it by one of strictly greater score. *)
Theorem best_score_table_first_max (tags : list string) (n : net World)
    (s : crawl_state World) :
  reachable tags n s ->
  (forall t, is_first_max (events_for t (scored s)) (best_for_tag s !! t)) /\
  (forall s' t b u0,
     crawl_step tags s = Continue s' -> best_for_tag s !! t = Some (b, u0) ->
     exists b' u', best_for_tag s' !! t = Some (b', u') /\
       ((b', u') = (b, u0) \/ (b < b')%Z)).
Proof.
  intros Hr. split.
  - change (table_first_max s). revert s Hr. apply reachable_invariant.
    + intros t. cbn. rewrite lookup_empty. reflexivity.
    + intros s s' _. apply table_first_max_step.
  - intros s' t b u0 Hstep Hlook. apply crawl_step_iteration in Hstep.
    destruct Hstep as [url depth q _ _ _
                      |url depth q html n' _ _ _ _ _ _
                      |url depth q page n' links text best hist _ _ _ _ _ _ _ Hsc];
      cbn [best_for_tag]; eauto.
    eapply score_tags_monotone; eauto.
Qed.

Lemma table_sound_step (tags : list string) (s s' : crawl_state World) :
  table_sound s -> iteration tags s s' -> table_sound s'.
Proof.
  intros Hinv Hit.
  destruct Hit as [url depth q _ _ _
                  |url depth q html n' _ _ _ _ _ _
                  |url depth q page n' links text best hist _ _ _ Hdom _ _ _ Hsc];
    unfold Ddex.table_sound; cbn [best_for_tag visited dequeued printed];
    intros t sc u Hlook.
  - destruct (Hinv t sc u Hlook) as (Hv & Hd & [d Hdq] & Hp & Hsc).
    repeat split; auto. exists d. apply elem_of_app. auto.
  - destruct (Hinv t sc u Hlook) as (Hv & Hd & [d Hdq] & [d' Hp] & Hsc).
    repeat split; auto.
    + apply elem_of_union. auto.
    + exists d. apply elem_of_app. auto.
    + exists d'. apply elem_of_app. auto.
  - destruct (score_tags_entries _ _ _ _ _ _ _ Hsc t sc u Hlook) as [Hold|[-> H10]].
    + destruct (Hinv t sc u Hold) as (Hv & Hd & [d Hdq] & [d' Hp] & Hsc').
      repeat split; auto.
      * apply elem_of_union. auto.
      * exists d. apply elem_of_app. auto.
      * exists d'. apply elem_of_app. auto.
    + repeat split; auto.
      * apply elem_of_union. left. apply elem_of_singleton. reflexivity.
      * exists depth. apply elem_of_app. right. apply list_elem_of_here.
      * exists depth. apply elem_of_app. right. apply list_elem_of_here.
Qed.

(** C10: in every state of a crawl, every entry (score, URL) of the table
    is for a URL that was dequeued, passed the allow-list, is in the visited
    set and was fetched with a usable page in this run, and its score is at
    least 10. *)
Theorem best_score_entries_are_pages (tags : list string) (n : net World)
    (s : crawl_state World) :
  reachable tags n s ->
  forall t sc u, best_for_tag s !! t = Some (sc, u) ->
    u ∈ visited s /\
    same_domain u = true /\
    (exists d, (u, d) ∈ dequeued s) /\
    (exists d, (d, u, true) ∈ printed s) /\
    (10 <= sc)%Z.
Proof.
  intros Hr. change (table_sound s). revert s Hr. apply reachable_invariant.
  - intros t sc u. cbn. rewrite lookup_empty. discriminate.
  - intros s s' _. apply table_sound_step.
Qed.

(** The scoring history grows by the tags found in the page. *)
Lemma score_tags_history (url text : string) (tags : list string)
    (best best' : gmap string (Z * string)) (hist hist' : list (string * Z * string))
    (P : string * Z * string -> Prop) :
  score_tags url text tags best hist = Some (best', hist') ->
  Forall P hist ->
  (forall t sc, t ∈ tags -> Re.search t text = true ->
     score url text t = Some sc -> P (t, sc, url)) ->
  Forall P hist'.
Proof.
  revert best hist.
  induction tags as [|t0 tags IH]; intros best hist; cbn [Ddex.score_tags].
  - intros [= <- <-] Hh _. exact Hh.
  - destruct (Re.search t0 text) eqn:Hsearch.
    + destruct (score url text t0) as [sc0|] eqn:Hsc; [|discriminate].
      intros Hrest Hh Hnew. eapply IH; [exact Hrest| |].
      * apply Forall_app. split; [exact Hh|]. repeat constructor.
        apply Hnew; [apply list_elem_of_here | exact Hsearch | exact Hsc].
      * intros t sc Ht. apply Hnew. apply list_elem_of_further. exact Ht.
    + intros Hrest Hh Hnew. eapply IH; [exact Hrest | exact Hh |].
      intros t sc Ht. apply Hnew. apply list_elem_of_further. exact Ht.
Qed.

(** The scoring history only holds tags of the caller found as whole
    words in visited pages, with the scores of these pages. *)
Lemma scored_history_sound (tags : list string) (n : net World) (s : crawl_state World) :
  reachable tags n s -> scored_sound tags s.
Proof.
  revert s. apply reachable_invariant.
  - constructor.
  - intros s s' _ Hinv Hit.
    assert (Hgrow : forall url, Forall (fun e : string * Z * string =>
                fst (fst e) ∈ tags /\ snd e ∈ {[url]} ∪ visited s /\
                exists text, whole_word_in (fst (fst e)) text /\
                             score (snd e) text (fst (fst e)) = Some (snd (fst e)))
              (scored s)).
    { intros url. eapply Forall_impl; [exact Hinv|]. cbn.
      intros e (Ht & Hv & Htext). repeat split; auto. apply elem_of_union. auto. }
    destruct Hit as [url depth q _ _ _
                    |url depth q html n' _ _ _ _ _ _
                    |url depth q page n' links text best hist _ _ _ _ _ _ _ Hsc];
      unfold Ddex.scored_sound; cbn [scored visited]; auto.
    eapply score_tags_history; [exact Hsc | apply Hgrow |].
    intros t sc Ht Hsearch Hscore. cbn [fst snd]. split; [exact Ht|]. split.
    + apply elem_of_union. left. apply elem_of_singleton. reflexivity.
    + exists text. split; [apply search_spec; exact Hsearch | exact Hscore].
Qed.

(** *** Termination *)

(** An exception leaves the loop exactly when BeautifulSoup raises on the
    fetched page: [score] is only called on a URL that passed the
    allow-list, which [urlparse] has accepted. *)
Lemma crawl_step_raise (tags : list string) (s : crawl_state World) :
  crawl_step tags s = Raise <-> parser_raises_at s.
Proof.
  unfold Ddex.crawl_step, Ddex.parser_raises_at. split.
  - destruct (queue s) as [|[url depth] q]; [discriminate|].
    destruct (Nat.ltb_spec (pages s) MAX_PAGES) as [Hlt|Hge]; cbn [negb]; [|discriminate].
    destruct (bool_decide (url ∈ visited s)) eqn:Hv; cbn [orb]; [discriminate|].
    apply bool_decide_eq_false in Hv.
    destruct (same_domain url) eqn:Hd; cbn [negb]; [|discriminate].
    destruct (fetch send url (network s)) as [html n'] eqn:Hf.
    destruct html as [[|c h]|]; try discriminate.
    unfold Ddex.extract_links.
    destruct (soup_raises (String c h)) eqn:Hraise.
    + intros _. exists url, depth, q, (String c h), n'.
      refine (conj eq_refl (conj Hlt (conj Hv (conj Hd (conj Hf (conj _ Hraise)))))).
      discriminate.
    + apply same_domain_netloc in Hd as [nl Hnl].
      match goal with |- context [score_tags url ?text tags ?b ?h] =>
        destruct (score_tags_defined url text tags b h) as [[best hist] ->];
          [rewrite Hnl; eauto | discriminate]
      end.
  - intros (url & depth & q & page & n' & Hq & Hlt & Hv & Hd & Hf & Hne & Hraise).
    rewrite Hq. apply Nat.ltb_lt in Hlt. rewrite Hlt. cbn [negb].
    rewrite (bool_decide_eq_false_2 _ Hv), Hd, Hf. cbn [negb orb].
    destruct page as [|c h]; [congruence|].
    unfold Ddex.extract_links. rewrite Hraise. reflexivity.
Qed.

(** The loop stops exactly when the queue is empty or the page cap is
    reached. *)
Lemma crawl_step_stop (tags : list string) (s : crawl_state World) :
  crawl_step tags s = Stop <-> queue s = [] \/ (MAX_PAGES <= pages s)%nat.
Proof.
  split.
  - intros Hstop. destruct (queue s) as [|[url depth] q] eqn:Hq; [auto|]. right.
    destruct (Nat.ltb_spec (pages s) MAX_PAGES) as [Hlt|Hge]; [|exact Hge].
    exfalso. revert Hstop. unfold Ddex.crawl_step. rewrite Hq.
    apply Nat.ltb_lt in Hlt. rewrite Hlt. cbn [negb].
    destruct (bool_decide (url ∈ visited s) || negb (same_domain url)); [discriminate|].
    destruct (fetch send url (network s)) as [html n'].
    destruct html as [[|c h]|]; try discriminate.
    destruct (extract_links url (String c h)) as [[links text]|]; [|discriminate].
    destruct (score_tags url text tags (best_for_tag s) (scored s)) as [[best hist]|];
      discriminate.
  - unfold Ddex.crawl_step. intros [->|Hge]; [reflexivity|].
    destruct (queue s) as [|[url depth] q]; [reflexivity|].
    apply Nat.ltb_ge in Hge. rewrite Hge. reflexivity.
Qed.

(** Each iteration either counts one more page, below the cap, or leaves
    the count and shortens the queue. *)
Lemma iteration_progress (tags : list string) (s s' : crawl_state World) :
  iteration tags s s' ->
  (pages s < MAX_PAGES)%nat /\
  (pages s' = S (pages s) \/
   (pages s' = pages s /\ (length (queue s') < length (queue s))%nat)).
Proof.
  intros Hit.
  destruct Hit as [url depth q Hq Hp _
                  |url depth q html n' Hq Hp _ _ _ _
                  |url depth q page n' links text best hist Hq Hp _ _ _ _ _ _];
    cbn [pages queue]; rewrite Hq; cbn [length]; split; auto; right; split; lia.
Qed.

Lemma pages_bounded (tags : list string) (n : net World) (s : crawl_state World) :
  reachable tags n s -> (pages s <= MAX_PAGES)%nat.
Proof.
  revert s. apply reachable_invariant.
  - cbn. unfold MAX_PAGES. lia.
  - intros s s' _ Hle Hit. apply iteration_progress in Hit as [Hlt [->|[-> _]]]; lia.
Qed.

(** The loop never runs forever: with enough fuel it stops, in a final
    state or on an exception. *)
Lemma crawl_loop_terminates_from (tags : list string) (s : crawl_state World) :
  exists fuel,
    (exists s', crawl_loop tags fuel s = Finished s') \/
    crawl_loop tags fuel s = Exception.
Proof.
  remember (MAX_PAGES - pages s)%nat as k eqn:Hk. revert s Hk.
  induction k as [k IHk] using lt_wf_ind. intros s Hk.
  remember (length (queue s)) as len eqn:Hlen. revert s Hk Hlen.
  induction len as [len IHlen] using lt_wf_ind. intros s Hk Hlen.
  destruct (crawl_step tags s) as [|s1|] eqn:Hstep.
  - exists 1%nat. left. exists s. cbn. rewrite Hstep. reflexivity.
  - pose proof (crawl_step_iteration _ _ _ Hstep) as Hit.
    apply iteration_progress in Hit as [Hlt [Hpg|[Hpg Hq]]].
    + destruct (IHk (MAX_PAGES - pages s1)%nat ltac:(lia) s1 eq_refl) as (fuel & Hrun).
      exists (S fuel). cbn. rewrite Hstep. exact Hrun.
    + destruct (IHlen (length (queue s1)) ltac:(lia) s1 ltac:(lia) eq_refl)
        as (fuel & Hrun).
      exists (S fuel). cbn. rewrite Hstep. exact Hrun.
  - exists 1%nat. right. cbn. rewrite Hstep. reflexivity.
Qed.

Lemma crawl_loop_finished (tags : list string) (n : net World) (fuel : nat)
    (s s' : crawl_state World) :
  crawl_loop tags fuel s = Finished s' ->
  reachable tags n s ->
  reachable tags n s' /\ crawl_step tags s' = Stop.
Proof.
  revert s. induction fuel as [|fuel IH]; intros s; cbn; [discriminate|].
  destruct (crawl_step tags s) as [|s1|] eqn:Hstep; [|intros Hrun Hr|discriminate].
  - intros [= <-] Hr. auto.
  - apply (IH s1 Hrun). eapply reachable_step; eauto.
Qed.

(** When the loop ends on an exception, it is in a state of the crawl
    where BeautifulSoup raises on the fetched page. *)
Lemma crawl_loop_exception (tags : list string) (n : net World) (fuel : nat)
    (s : crawl_state World) :
  crawl_loop tags fuel s = Exception ->
  reachable tags n s ->
  exists s', reachable tags n s' /\ parser_raises_at s'.
Proof.
  revert s. induction fuel as [|fuel IH]; intros s; cbn; [discriminate|].
  destruct (crawl_step tags s) as [|s1|] eqn:Hstep; [discriminate|intros Hrun Hr|].
  - apply (IH s1 Hrun). eapply reachable_step; eauto.
  - intros _ Hr. exists s. split; [exact Hr|]. apply crawl_step_raise in Hstep. exact Hstep.
Qed.

Lemma crawl_loop_more_fuel (tags : list string) (fuel fuel' : nat)
    (s s' : crawl_state World) :
  crawl_loop tags fuel s = Finished s' -> (fuel <= fuel')%nat ->
  crawl_loop tags fuel' s = Finished s'.
Proof.
  revert fuel' s. induction fuel as [|fuel IH]; intros fuel' s; cbn; [discriminate|].
  intros Hrun Hle. destruct fuel' as [|fuel']; [lia|]. cbn.
  destruct (crawl_step tags s) as [|s1|]; [exact Hrun| |discriminate].
  apply IH; [exact Hrun | lia].
Qed.

Lemma crawl_loop_more_fuel_exception (tags : list string) (fuel fuel' : nat)
    (s : crawl_state World) :
  crawl_loop tags fuel s = Exception -> (fuel <= fuel')%nat ->
  crawl_loop tags fuel' s = Exception.
Proof.
  revert fuel' s. induction fuel as [|fuel IH]; intros fuel' s; cbn; [discriminate|].
  intros Hrun Hle. destruct fuel' as [|fuel']; [lia|]. cbn.
  destruct (crawl_step tags s) as [|s1|]; [discriminate| |reflexivity].
  apply IH; [exact Hrun | lia].
Qed.

(** The two ways a crawl ends: in a final state, where the loop condition
    is false, or on the exception of the parser. *)
Lemma crawl_loop_outcome (tags : list string) (n : net World) :
  exists fuel,
    (exists s,
       (forall fuel', (fuel <= fuel')%nat ->
          crawl_loop tags fuel' (crawl_init n) = Finished s) /\
       reachable tags n s /\ crawl_step tags s = Stop) \/
    ((forall fuel', (fuel <= fuel')%nat ->
        crawl_loop tags fuel' (crawl_init n) = Exception) /\
     exists s, reachable tags n s /\ parser_raises_at s).
Proof.
  destruct (crawl_loop_terminates_from tags (crawl_init n)) as (fuel & [[s Hrun]|Hrun]);
    exists fuel.
  - left. exists s. split.
    + intros fuel' Hle. eapply crawl_loop_more_fuel; eauto.
    + eapply crawl_loop_finished; [exact Hrun | constructor].
  - right. split.
    + intros fuel' Hle. eapply crawl_loop_more_fuel_exception; eauto.
    + eapply crawl_loop_exception; [exact Hrun | constructor].
Qed.

End Crawl.

(** ** The properties on the small site *)

Lemma toy_final_reachable :
  reachable Toy.brackets_ok Toy.join Toy.raises Toy.hrefs Toy.texts nat Toy.send Toy.tags Toy.n0
    Toy.final.
Proof.
  eapply (crawl_loop_finished Toy.brackets_ok Toy.join Toy.raises Toy.hrefs Toy.texts nat Toy.send
            Toy.tags Toy.n0 10 (crawl_init Toy.n0)).
  - vm_compute. reflexivity.
  - constructor.
Qed.

(** C8 (the code fails it): [extract_links] calls BeautifulSoup outside any
    [try], unlike [fetch], [normalize_url], [same_domain] and
    [check_url_alive], which all catch the exceptions of the libraries they
    call.  On a site whose first page is fetched well (status 200, HTML)
    but has a body that [html.parser] rejects, the loop ends on the
    exception in its first iteration, whatever the fuel, and [crawl]
    returns nothing instead of its partial result. *)
Theorem crawl_aborts_on_rejected_markup (fuel : nat) :
  fetch Toy.send_bad Toy.root Toy.n0 =
    (Some "<![foo[bar]]>", Net 1%nat [GET Toy.root FETCH_TIMEOUT]) /\
  extract_links Toy.brackets_ok Toy.join Toy.raises Toy.hrefs Toy.texts
    Toy.root "<![foo[bar]]>" = None /\
  crawl_loop Toy.brackets_ok Toy.join Toy.raises Toy.hrefs Toy.texts nat Toy.send_bad
    Toy.tags (S fuel) (crawl_init Toy.n0) = Exception /\
  crawl Toy.brackets_ok Toy.join Toy.raises Toy.hrefs Toy.texts nat Toy.send_bad
    (S fuel) Toy.tags Toy.n0 = None.
Proof.
  assert (Hstep : crawl_step Toy.brackets_ok Toy.join Toy.raises Toy.hrefs Toy.texts nat
                    Toy.send_bad Toy.tags (crawl_init Toy.n0) = Raise)
    by (vm_compute; reflexivity).
  split; [reflexivity|]. split; [reflexivity|].
  unfold crawl. cbn [crawl_loop]. rewrite Hstep. split; reflexivity.
Qed.

Lemma best_score_table_first_max_witness :
  (forall t, is_first_max (events_for t (scored Toy.final)) (best_for_tag Toy.final !! t)) /\
  (forall s' t b u0,
     crawl_step Toy.brackets_ok Toy.join Toy.raises Toy.hrefs Toy.texts nat Toy.send Toy.tags Toy.final
       = Continue s' ->
     best_for_tag Toy.final !! t = Some (b, u0) ->
     exists b' u', best_for_tag s' !! t = Some (b', u') /\
       ((b', u') = (b, u0) \/ (b < b')%Z)).
Proof.
  exact (best_score_table_first_max Toy.brackets_ok Toy.join Toy.raises Toy.hrefs Toy.texts nat
           Toy.send Toy.tags Toy.n0 Toy.final toy_final_reachable).
Defined.

Lemma crawl_depth_bound_witness :
  Forall (fun x => (snd x <= MAX_DEPTH)%nat) (queue Toy.final) /\
  Forall (fun x => (snd x <= MAX_DEPTH)%nat) (dequeued Toy.final) /\
  Forall (fun x => (fst (fst x) <= MAX_DEPTH)%nat) (printed Toy.final).
Proof.
  exact (crawl_depth_bound Toy.brackets_ok Toy.join Toy.raises Toy.hrefs Toy.texts nat
           Toy.send Toy.tags Toy.n0 Toy.final toy_final_reachable).
Defined.

Lemma crawl_breadth_first_witness :
  StronglySorted le (map snd (dequeued Toy.final)) /\
  StronglySorted le (map (fun p => fst (fst p)) (printed Toy.final)) /\
  (forall i j x y, dequeued Toy.final !! i = Some x -> dequeued Toy.final !! j = Some y ->
     (snd x < snd y)%nat -> (i < j)%nat) /\
  (forall i j x y, printed Toy.final !! i = Some x -> printed Toy.final !! j = Some y ->
     (fst (fst x) < fst (fst y))%nat -> (i < j)%nat).
Proof.
  exact (crawl_breadth_first Toy.brackets_ok Toy.join Toy.raises Toy.hrefs Toy.texts nat
           Toy.send Toy.tags Toy.n0 Toy.final toy_final_reachable).
Defined.

Lemma best_score_entries_are_pages_witness :
  Toy.leaf ∈ visited Toy.final /\
  same_domain Toy.brackets_ok Toy.leaf = true /\
  (exists d, (Toy.leaf, d) ∈ dequeued Toy.final) /\
  (exists d, (d, Toy.leaf, true) ∈ printed Toy.final) /\
  (10 <= 350)%Z.
Proof.
  refine (best_score_entries_are_pages Toy.brackets_ok Toy.join Toy.raises Toy.hrefs Toy.texts nat
            Toy.send Toy.tags Toy.n0 Toy.final toy_final_reachable "ISRC" 350%Z Toy.leaf _).
  vm_compute. reflexivity.
Defined.

(** * Further properties of the program *)

(** ** The leaves *)

Lemma endswith_trans (a b c : string) :
  Str.endswith a b = true -> Str.endswith b c = true -> Str.endswith a c = true.
Proof.
  rewrite !endswith_spec. intros [x ->] [y ->].
  exists (y +:+ x). rewrite append_assoc. reflexivity.
Qed.

Lemma take_length (n : nat) (s : string) : (String.length (Str.take n s) <= n)%nat.
Proof.
  revert s. induction n as [|n IH]; intros [|c s]; cbn; try lia.
  specialize (IH s). lia.
Qed.

Lemma same_domain_empty (brackets_ok : string -> bool) :
  same_domain brackets_ok EmptyString = false.
Proof. reflexivity. Qed.

Section FurtherLeaves.

Variable brackets_ok : string -> bool.
Variable urljoin_defrag : string -> string -> option string.
Variable soup_raises : string -> bool.
Variable soup_hrefs : string -> list string.
Variable soup_texts : string -> list string.
Variable World : Type.
Variable send : request -> World -> option response * World.

Local Abbreviation netloc := (netloc brackets_ok).
Local Abbreviation same_domain := (same_domain brackets_ok).
Local Abbreviation score := (score brackets_ok).
Local Abbreviation extract_links :=
  (extract_links brackets_ok urljoin_defrag soup_raises soup_hrefs soup_texts).
Local Abbreviation http := (http send).
Local Abbreviation fetch := (fetch send).

(** X1: the allow-list check answers true exactly for the URLs that
    [urlparse] accepts and whose lowercased network location ends with
    [ddex.net]: the two longer entries of [ALLOWED_DOMAINS] add nothing. *)
Theorem same_domain_iff_ddex_suffix (url : string) :
  same_domain url = true <->
  exists nl, netloc url = Some nl /\ Str.endswith "ddex.net" (Str.lower nl) = true.
Proof.
  unfold Ddex.same_domain. destruct (netloc url) as [nl|].
  2:{ split; [discriminate | intros (nl & H & _); discriminate]. }
  cbn [existsb ALLOWED_DOMAINS]. rewrite orb_false_r. split.
  - intros H. exists nl. split; [reflexivity|].
    apply orb_true_iff in H as [H|H]; [|apply orb_true_iff in H as [H|H]].
    + eapply endswith_trans; [|exact H]. reflexivity.
    + eapply endswith_trans; [|exact H]. reflexivity.
    + exact H.
  - intros (nl' & [= <-] & H). rewrite H, !orb_true_r. reflexivity.
Qed.

(** X2: the score of an accepted URL is a multiple of 10 between 0 and
    370. *)
Theorem score_range (url text tag : string) (sc : Z) :
  score url text tag = Some sc ->
  (0 <= sc <= 370)%Z /\ exists k, (sc = 10 * k)%Z.
Proof.
  unfold Ddex.score. destruct (netloc url) as [nl|]; [|discriminate].
  intros [= <-]. pose proof (priority_range (Str.lower nl)) as Hp.
  destruct (Str.contains _ _).
  - split; [lia|].
    exists (priority (Str.lower nl) * 10 + 2
            + Z.min (Z.of_nat (Re.findall_count tag text)) 5)%Z. lia.
  - split; [lia|].
    exists (priority (Str.lower nl) * 10
            + Z.min (Z.of_nat (Re.findall_count tag text)) 5)%Z. lia.
Qed.


(** X4: [fetch] answers with a page exactly when the GET request comes
    back with status 200 and a content type containing [text/html], and
    the page is the body of the response; whatever the outcome, it sends
    this one GET request, with a timeout of 15. *)
Theorem fetch_spec (url : string) (n : net World) :
  (forall html,
     fst (fetch url n) = Some html <->
     exists r, fst (http (GET url FETCH_TIMEOUT) n) = Some r /\
       status_code r = 200%Z /\
       Str.contains "text/html" (default EmptyString (content_type r)) = true /\
       html = text r) /\
  sent (snd (fetch url n)) = sent n ++ [GET url FETCH_TIMEOUT].
Proof.
  unfold Ddex.fetch.
  pose proof (http_sent World send (GET url FETCH_TIMEOUT) n) as Hs.
  destruct (http (GET url FETCH_TIMEOUT) n) as [[r|] n']; cbn [fst snd] in *.
  - destruct (Z.eqb_spec (status_code r) 200) as [H200|H200]; cbn [andb].
    + destruct (Str.contains "text/html" _) eqn:Hct; cbn [fst snd].
      * split; [|exact Hs]. intros html. split.
        -- intros [= <-]. eauto.
        -- intros (r' & [= <-] & _ & _ & ->). reflexivity.
      * split; [|exact Hs]. intros html. split; [discriminate|].
        intros (r' & [= <-] & _ & Hc & _). congruence.
    + cbn [fst snd]. split; [|exact Hs]. intros html. split; [discriminate|].
      intros (r' & [= <-] & Hc & _). congruence.
  - split; [|exact Hs]. intros html. split; [discriminate|].
    intros (r' & H & _). discriminate.
Qed.

(** X5: every link [extract_links] returns is non-empty and passes the
    allow-list check (an [href] that cannot be joined is dropped), and
    there are no more links than anchors. *)
Theorem extract_links_allowed (base_url html : string) (links : list string)
    (text : string) :
  extract_links base_url html = Some (links, text) ->
  Forall (fun u => u <> EmptyString /\ same_domain u = true) links /\
  (length links <= length (soup_hrefs html))%nat.
Proof.
  unfold Ddex.extract_links. destruct (soup_raises html); [discriminate|].
  intros [= <- _]. split.
  - apply Forall_forall. intros u Hu. apply list_elem_of_In, filter_In in Hu as [_ Hu].
    apply andb_true_iff in Hu as [Hne Hd]. split; [|exact Hd].
    apply nonempty_true. exact Hne.
  - etransitivity; [apply filter_length_le|]. rewrite length_map. reflexivity.
Qed.

(** X6: the text [extract_links] returns is the fragments of the page
    joined by line breaks, each fragment non-empty and of at most 300
    characters. *)
Theorem extract_links_text (base_url html : string) (links : list string)
    (text : string) :
  extract_links base_url html = Some (links, text) ->
  exists parts,
    text = Str.join newline parts /\
    Forall (fun p => p <> EmptyString /\ (String.length p <= 300)%nat) parts /\
    (length parts <= length (soup_texts html))%nat.
Proof.
  unfold Ddex.extract_links. destruct (soup_raises html); [discriminate|].
  intros [= _ <-].
  exists (map (Str.take 300) (List.filter Str.nonempty (soup_texts html))).
  split; [reflexivity|]. split.
  - apply Forall_map, Forall_forall. intros p Hp.
    apply list_elem_of_In, filter_In in Hp as [_ Hp]. split; [|apply take_length].
    destruct p; [discriminate | cbn; discriminate].
  - rewrite length_map. apply filter_length_le.
Qed.

End FurtherLeaves.

Lemma score_range_witness :
  (0 <= 350 <= 370)%Z /\ exists k, (350 = 10 * k)%Z.
Proof.
  exact (score_range Toy.brackets_ok Toy.leaf "ISRC, ISRC and ISRC" "ISRC" 350%Z eq_refl).
Defined.

Lemma extract_links_allowed_witness :
  Forall (fun u => u <> EmptyString /\ same_domain Toy.brackets_ok u = true)
         [Toy.leaf; Toy.root] /\
  (length [Toy.leaf; Toy.root] <= length (Toy.hrefs "root"))%nat.
Proof.
  exact (extract_links_allowed Toy.brackets_ok Toy.join Toy.raises Toy.hrefs Toy.texts
           Toy.root "root" [Toy.leaf; Toy.root] _ eq_refl).
Defined.

Lemma extract_links_text_witness :
  exists parts,
    "DDEX" +:+ newline +:+ "The ISRC is a code" = Str.join newline parts /\
    Forall (fun p => p <> EmptyString /\ (String.length p <= 300)%nat) parts /\
    (length parts <= length (Toy.texts "root"))%nat.
Proof.
  exact (extract_links_text Toy.brackets_ok Toy.join Toy.raises Toy.hrefs Toy.texts
           Toy.root "root" _ _ eq_refl).
Defined.


(** ** The reconciliation loop *)

Section FurtherReconcile.

Variable World : Type.
Variable send : request -> World -> option response * World.

Local Abbreviation check_url_alive := (check_url_alive send).
Local Abbreviation reconcile_entry := (reconcile_entry send).
Local Abbreviation reconcile := (reconcile send).

Lemma reconcile_dom (scraped : gmap string string) (data : list (string * json))
    (updated : gmap string string) (n : net World) :
  dom (fst (reconcile scraped data updated n)) =
    dom updated ∪ list_to_set (map fst data).
Proof.
  revert updated n. induction data as [|[k v] data IH]; intros updated n.
  - cbn. rewrite (right_id_L ∅ (∪)). reflexivity.
  - cbn [Ddex.reconcile map fst]. destruct (reconcile_entry scraped k v n) as [f n'].
    rewrite IH, dom_insert_L, list_to_set_cons.
    rewrite (comm_L (∪) {[k]} (dom updated)), <- (assoc_L (∪)). reflexivity.
Qed.

(** The three outcomes of one entry: the empty string without a check, or
    a checked URL, itself when alive and the empty string otherwise. *)
Lemma reconcile_entry_final (scraped : gmap string string) (k : string) (v : json)
    (n : net World) :
  let final :=
    match scraped !! k with
    | Some u => if Str.startswith PLACEHOLDER_PREFIX (old_value v) && Str.nonempty u
                then u else old_value v
    | None => old_value v
    end in
  reconcile_entry scraped k v n =
    if Str.nonempty final
    then (if fst (check_url_alive final n) then final else EmptyString,
          snd (check_url_alive final n))
    else (EmptyString, n).
Proof.
  intros final. unfold Ddex.reconcile_entry. fold final.
  destruct (Str.nonempty final) eqn:Hne.
  - destruct (check_url_alive final n); reflexivity.
  - destruct final; [reflexivity | discriminate].
Qed.

(** X7: the output mapping has exactly the keys of the input mapping. *)
Theorem reconcile_key_set (scraped : gmap string string) (data : list (string * json))
    (n : net World) :
  dom (fst (reconcile scraped data ∅ n)) = list_to_set (map fst data).
Proof.
  rewrite reconcile_dom, dom_empty_L. apply (left_id_L ∅ (∪)).
Qed.

(** X8: a non-empty output value has passed the liveness check, run when
    the loop reached its tag, and is either the stripped input value or,
    for a placeholder, the URL the crawl found for the tag. *)
Theorem reconcile_output_alive (scraped : gmap string string)
    (pre post : list (string * json)) (k : string) (v : json) (n : net World)
    (u : string) :
  k ∉ map fst post ->
  fst (reconcile scraped (pre ++ (k, v) :: post) ∅ n) !! k = Some u ->
  u <> EmptyString ->
  fst (check_url_alive u (snd (reconcile scraped pre ∅ n))) = true /\
  (u = old_value v \/
   (scraped !! k = Some u /\
    Str.startswith PLACEHOLDER_PREFIX (old_value v) = true)).
Proof.
  intros Hk Hout Hne. rewrite reconcile_lookup in Hout by exact Hk.
  injection Hout as Hout. rewrite reconcile_entry_final in Hout. cbv zeta in Hout.
  set (n1 := snd (reconcile scraped pre ∅ n)) in *.
  destruct (scraped !! k) as [c|] eqn:Hc.
  - destruct (Str.startswith PLACEHOLDER_PREFIX (old_value v) && Str.nonempty c) eqn:Hcond.
    + destruct (Str.nonempty c); [|subst u; cbn in Hne; congruence].
      destruct (fst (check_url_alive c n1)) eqn:Ha; cbn [fst] in Hout; [|congruence].
      subst u. split; [exact Ha|]. right. split; [reflexivity|].
      apply andb_true_iff in Hcond. tauto.
    + destruct (Str.nonempty (old_value v)); [|cbn in Hout; congruence].
      destruct (fst (check_url_alive (old_value v) n1)) eqn:Ha; cbn [fst] in Hout;
        [|congruence].
      subst u. auto.
  - destruct (Str.nonempty (old_value v)); [|cbn in Hout; congruence].
    destruct (fst (check_url_alive (old_value v) n1)) eqn:Ha; cbn [fst] in Hout;
      [|congruence].
    subst u. auto.
Qed.

(** X9: a tag whose stripped value starts with the placeholder prefix and
    for which the crawl found a URL gets that URL when the liveness check
    on it answers alive, and the empty string otherwise; the placeholder
    itself is not checked. *)
Theorem reconcile_substitutes_candidate (scraped : gmap string string)
    (pre post : list (string * json)) (k : string) (v : json) (n : net World)
    (c : string) :
  k ∉ map fst post ->
  scraped !! k = Some c -> c <> EmptyString ->
  Str.startswith PLACEHOLDER_PREFIX (old_value v) = true ->
  let before := snd (reconcile scraped pre ∅ n) in
  fst (reconcile scraped (pre ++ (k, v) :: post) ∅ n) !! k =
    Some (if fst (check_url_alive c before) then c else EmptyString) /\
  snd (reconcile scraped (pre ++ [(k, v)]) ∅ n) = snd (check_url_alive c before).
Proof.
  intros Hk Hc Hne Hph before. apply nonempty_true in Hne.
  assert (Hentry : reconcile_entry scraped k v before =
            (if fst (check_url_alive c before) then c else EmptyString,
             snd (check_url_alive c before))).
  { rewrite reconcile_entry_final. cbv zeta. rewrite Hc, Hph, Hne. cbn [andb].
    rewrite Hne. reflexivity. }
  split.
  - rewrite reconcile_lookup by exact Hk. fold before. rewrite Hentry. reflexivity.
  - rewrite reconcile_app. cbn [Ddex.reconcile]. fold before. rewrite Hentry. reflexivity.
Qed.

(** X10: a tag whose value is not a string, or is empty once stripped,
    gets the empty string, whatever the crawl found for it, and no request
    is sent for it. *)
Theorem reconcile_empty_value (scraped : gmap string string)
    (pre post : list (string * json)) (k : string) (v : json) (n : net World) :
  k ∉ map fst post ->
  old_value v = EmptyString ->
  fst (reconcile scraped (pre ++ (k, v) :: post) ∅ n) !! k = Some EmptyString /\
  snd (reconcile scraped (pre ++ [(k, v)]) ∅ n) = snd (reconcile scraped pre ∅ n).
Proof.
  intros Hk Hold.
  assert (Hentry : forall m, reconcile_entry scraped k v m = (EmptyString, m)).
  { intros m. rewrite reconcile_entry_final. cbv zeta. rewrite Hold.
    destruct (scraped !! k); reflexivity. }
  split.
  - rewrite reconcile_lookup by exact Hk. rewrite Hentry. reflexivity.
  - rewrite reconcile_app. cbn [Ddex.reconcile]. rewrite Hentry. reflexivity.
Qed.

End FurtherReconcile.

Lemma reconcile_output_alive_witness :
  fst (check_url_alive Toy.send Toy.leaf Toy.n0) = true /\
  (Toy.leaf = old_value (JStr Toy.placeholder) \/
   (({["ISRC" := Toy.leaf]} : gmap string string) !! "ISRC" = Some Toy.leaf /\
    Str.startswith PLACEHOLDER_PREFIX (old_value (JStr Toy.placeholder)) = true)).
Proof.
  exact (reconcile_output_alive nat Toy.send {["ISRC" := Toy.leaf]} [] []
           "ISRC" (JStr Toy.placeholder) Toy.n0 Toy.leaf
           ltac:(cbn; apply not_elem_of_nil) eq_refl ltac:(discriminate)).
Defined.

Lemma reconcile_substitutes_candidate_witness :
  fst (reconcile Toy.send {["ISRC" := Toy.leaf]} [("ISRC", JStr Toy.placeholder)] ∅ Toy.n0)
    !! "ISRC" = Some Toy.leaf /\
  snd (reconcile Toy.send {["ISRC" := Toy.leaf]} [("ISRC", JStr Toy.placeholder)] ∅ Toy.n0)
    = Net 1%nat [HEAD Toy.leaf CHECK_TIMEOUT].
Proof.
  exact (reconcile_substitutes_candidate nat Toy.send {["ISRC" := Toy.leaf]} [] []
           "ISRC" (JStr Toy.placeholder) Toy.n0 Toy.leaf
           ltac:(cbn; apply not_elem_of_nil) eq_refl ltac:(discriminate) eq_refl).
Defined.

Lemma reconcile_empty_value_witness :
  fst (reconcile Toy.send {["Null" := Toy.leaf]} [("Null", JOther)] ∅ Toy.n0)
    !! "Null" = Some EmptyString /\
  snd (reconcile Toy.send {["Null" := Toy.leaf]} [("Null", JOther)] ∅ Toy.n0) = Toy.n0.
Proof.
  exact (reconcile_empty_value nat Toy.send {["Null" := Toy.leaf]} [] []
           "Null" JOther Toy.n0 ltac:(cbn; apply not_elem_of_nil) eq_refl).
Defined.

(** ** The crawl *)

Section FurtherCrawl.

Variable brackets_ok : string -> bool.
Variable urljoin_defrag : string -> string -> option string.
Variable soup_raises : string -> bool.
Variable soup_hrefs : string -> list string.
Variable soup_texts : string -> list string.
Variable World : Type.
Variable send : request -> World -> option response * World.

Local Abbreviation same_domain := (same_domain brackets_ok).
Local Abbreviation score := (score brackets_ok).
Local Abbreviation score_tags := (score_tags brackets_ok).
Local Abbreviation extract_links :=
  (extract_links brackets_ok urljoin_defrag soup_raises soup_hrefs soup_texts).
Local Abbreviation crawl_step :=
  (crawl_step brackets_ok urljoin_defrag soup_raises soup_hrefs soup_texts World send).
Local Abbreviation crawl_loop :=
  (crawl_loop brackets_ok urljoin_defrag soup_raises soup_hrefs soup_texts World send).
Local Abbreviation crawl :=
  (crawl brackets_ok urljoin_defrag soup_raises soup_hrefs soup_texts World send).
Local Abbreviation main :=
  (main brackets_ok urljoin_defrag soup_raises soup_hrefs soup_texts World send).
Local Abbreviation reachable :=
  (reachable brackets_ok urljoin_defrag soup_raises soup_hrefs soup_texts World send).
Local Abbreviation iteration :=
  (iteration brackets_ok urljoin_defrag soup_raises soup_hrefs soup_texts World send).
Local Abbreviation parser_raises_at := (parser_raises_at brackets_ok soup_raises World send).
Local Abbreviation invariant :=
  (reachable_invariant brackets_ok urljoin_defrag soup_raises soup_hrefs soup_texts World send).

Lemma fetch_sent (url : string) (n n' : net World) (html : option string) :
  fetch send url n = (html, n') -> sent n' = sent n ++ [GET url FETCH_TIMEOUT].
Proof.
  unfold fetch. pose proof (http_sent World send (GET url FETCH_TIMEOUT) n) as Hs.
  destruct (http send (GET url FETCH_TIMEOUT) n) as [[r|] n1]; cbn [snd] in Hs.
  - destruct (_ && _); intros [= _ <-]; exact Hs.
  - intros [= _ <-]; exact Hs.
Qed.

Lemma links_allowed (base_url html : string) (links : list string) (text : string) :
  extract_links base_url html = Some (links, text) ->
  Forall (fun u => u <> EmptyString /\ same_domain u = true) links.
Proof.
  unfold Ddex.extract_links. destruct (soup_raises html); [discriminate|].
  intros [= <- _].
  apply Forall_forall. intros u Hu. apply list_elem_of_In, filter_In in Hu as [_ Hu].
  apply andb_true_iff in Hu as [Hne Hd]. split; [|exact Hd].
  apply nonempty_true. exact Hne.
Qed.

Lemma children_urls (seen : gset string) (depth : nat) (links : list string)
    (P : string -> Prop) :
  Forall P links -> Forall (fun x => P (fst x)) (children seen depth links).
Proof.
  intros Hl. unfold children. destruct (depth <? MAX_DEPTH)%nat; [|constructor].
  apply Forall_map, Forall_forall. intros u Hu. cbn [fst].
  apply list_elem_of_In, filter_In in Hu as [Hu _].
  rewrite Forall_forall in Hl. apply Hl, list_elem_of_In. exact Hu.
Qed.

(** X11: in every state of a crawl, no URL has been fetched twice (a page
    that failed included), the visited set is the set of the URLs fetched,
    and the requests the crawl has sent are one GET, with a timeout of 15,
    for each of them, in order. *)
Theorem crawl_fetches_each_url_once (tags : list string) (n : net World)
    (s : crawl_state World) :
  reachable tags n s ->
  NoDup (map (fun p => snd (fst p)) (printed s)) /\
  visited s = list_to_set (map (fun p => snd (fst p)) (printed s)) /\
  sent (network s) =
    sent n ++ map (fun p => GET (snd (fst p)) FETCH_TIMEOUT) (printed s).
Proof.
  intros Hr. pattern s. revert s Hr. apply invariant; cbv beta.
  - cbn. split; [constructor|]. split; [reflexivity|]. rewrite app_nil_r. reflexivity.
  - intros s s' _ (Hnd & Hv & Hs) Hit.
    assert (Hsnoc : forall url depth (ok : bool) n' html,
              url ∉ visited s -> fetch send url (network s) = (html, n') ->
              NoDup (map (fun p => snd (fst p)) (printed s ++ [(depth, url, ok)])) /\
              {[url]} ∪ visited s =
                list_to_set (map (fun p => snd (fst p)) (printed s ++ [(depth, url, ok)])) /\
              sent n' = sent n ++ map (fun p => GET (snd (fst p)) FETCH_TIMEOUT)
                                      (printed s ++ [(depth, url, ok)])).
    { intros url depth ok n' html Hnv Hf. rewrite !map_app. cbn [map fst snd].
      split; [|split].
      - apply NoDup_app. split; [exact Hnd|]. split; [|apply NoDup_singleton].
        intros x Hx Hx'. apply list_elem_of_singleton in Hx' as ->.
        apply Hnv. rewrite Hv. apply elem_of_list_to_set. exact Hx.
      - rewrite list_to_set_app_L, list_to_set_singleton_L, Hv.
        apply (comm_L (∪)).
      - rewrite (fetch_sent _ _ _ _ Hf), Hs, <- app_assoc. reflexivity. }
    destruct Hit as [url depth q _ _ _
                    |url depth q html n' _ _ Hnv _ Hf _
                    |url depth q page n' links text best hist _ _ Hnv _ Hf _ _ _];
      cbn [printed visited network]; eauto.
Qed.

(** X12: in every state of a crawl, every URL in the queue is non-empty
    and passes the allow-list check, and so does every URL fetched: the
    crawl sends no request outside the allowed domains, and an item is
    only ever discarded because it was visited before. *)
Theorem crawl_stays_on_allowed_domains (tags : list string) (n : net World)
    (s : crawl_state World) :
  reachable tags n s ->
  Forall (fun x => fst x <> EmptyString /\ same_domain (fst x) = true) (queue s) /\
  Forall (fun p => same_domain (snd (fst p)) = true) (printed s).
Proof.
  intros Hr. pattern s. revert s Hr. apply invariant; cbv beta.
  - rewrite crawl_init_queue. cbn [printed crawl_init]. split; [|constructor].
    repeat (constructor; [cbn [fst]; split; [discriminate | reflexivity]|]). constructor.
  - intros s s' _ (Hq & Hp) Hit.
    destruct Hit as [url depth q Hqs _ _
                    |url depth q html n' Hqs _ _ Hd _ _
                    |url depth q page n' links text best hist Hqs _ _ Hd _ _ He _];
      rewrite Hqs in Hq; apply Forall_cons in Hq as [_ Hq]; cbn [queue printed].
    + auto.
    + split; [exact Hq|]. apply Forall_app. split; [exact Hp|]. repeat constructor. exact Hd.
    + split.
      * apply Forall_app. split; [exact Hq|].
        apply (children_urls _ _ _ (fun u => u <> EmptyString /\ same_domain u = true)).
        eapply links_allowed. exact He.
      * apply Forall_app. split; [exact Hp|]. repeat constructor. exact Hd.
Qed.

(** X13: in every state of a crawl, the page counter is the number of
    fetches that gave a usable page (failed fetches do not count), and it
    is at most [MAX_PAGES]. *)
Theorem crawl_page_count (tags : list string) (n : net World) (s : crawl_state World) :
  reachable tags n s ->
  pages s = length (List.filter (fun p => snd p) (printed s)) /\
  (pages s <= MAX_PAGES)%nat.
Proof.
  intros Hr. pattern s. revert s Hr. apply invariant; cbv beta.
  - cbn. unfold MAX_PAGES. lia.
  - intros s s' _ (Hc & Hle) Hit.
    destruct Hit as [url depth q _ Hlt _
                    |url depth q html n' _ Hlt _ _ _ _
                    |url depth q page n' links text best hist _ Hlt _ _ _ _ _ _];
      cbn [pages printed]; rewrite ?List.filter_app, ?length_app; cbn [List.filter snd length];
      lia.
Qed.

(** The table only gets entries for tags of the caller. *)
Lemma score_tags_keys (url text : string) (tags : list string)
    (best best' : gmap string (Z * string)) (hist hist' : list (string * Z * string)) :
  score_tags url text tags best hist = Some (best', hist') ->
  forall t, is_Some (best' !! t) -> is_Some (best !! t) \/ t ∈ tags.
Proof.
  revert best hist.
  induction tags as [|t0 tags IH]; intros best hist; cbn [Ddex.score_tags].
  - intros [= <- <-]. auto.
  - destruct (Re.search t0 text).
    + destruct (score url text t0) as [sc0|]; [|discriminate].
      intros Hrest t Ht. destruct (IH _ _ Hrest t Ht) as [Hold|Hin].
      * rewrite update_best_lookup in Hold.
        destruct (decide (t0 = t)) as [<-|Hne]; [right; apply list_elem_of_here | auto].
      * right. apply list_elem_of_further. exact Hin.
    + intros Hrest t Ht. destruct (IH _ _ Hrest t Ht) as [Hold|Hin]; [auto|].
      right. apply list_elem_of_further. exact Hin.
Qed.

(** X14: in every state of a crawl, what [crawl] would return maps only
    tags of the caller, each to a non-empty URL that passes the allow-list
    check; so a tag that was not asked for never gets a URL, and [main]'s
    test of the candidate only tests its presence. *)
Theorem crawl_result_sound (tags : list string) (n : net World) (s : crawl_state World) :
  reachable tags n s ->
  forall t u, crawl_result s !! t = Some u ->
    t ∈ tags /\ u <> EmptyString /\ same_domain u = true.
Proof.
  intros Hr t u Hlook. unfold crawl_result in Hlook.
  apply lookup_fmap_Some in Hlook as ([sc u'] & Hu & Hbest). cbn in Hu. subst u'.
  assert (Hkeys : forall t, is_Some (best_for_tag s !! t) -> t ∈ tags).
  { clear t sc u Hbest. pattern s. revert s Hr. apply invariant; cbv beta.
    - intros t [x Hx]. cbn in Hx. rewrite lookup_empty in Hx. discriminate.
    - intros s s' _ Hinv Hit t Ht.
      destruct Hit as [url depth q _ _ _
                      |url depth q html n' _ _ _ _ _ _
                      |url depth q page n' links text best hist _ _ _ _ _ _ _ Hsc];
        cbn [best_for_tag] in Ht; auto.
      destruct (score_tags_keys _ _ _ _ _ _ _ Hsc t Ht); auto. }
  assert (Hsound : @table_sound brackets_ok World s).
  { clear Hkeys Hbest. revert s Hr. apply invariant.
    - intros t0 sc0 u0. cbn. rewrite lookup_empty. discriminate.
    - intros s s' _. apply table_sound_step. }
  destruct (Hsound t sc u Hbest) as (_ & Hd & _).
  split; [apply Hkeys; eauto|]. split; [|exact Hd].
  intros ->. rewrite same_domain_empty in Hd. discriminate.
Qed.

(** A tag of the list found in the text is in the table after the scoring
    loop, with a score at least that of the page. *)
Lemma score_tags_records (url text : string) (tags : list string)
    (best best' : gmap string (Z * string)) (hist hist' : list (string * Z * string))
    (t : string) :
  score_tags url text tags best hist = Some (best', hist') ->
  t ∈ tags -> Re.search t text = true ->
  exists sc sc' u', score url text t = Some sc /\
    best' !! t = Some (sc', u') /\ (sc <= sc')%Z.
Proof.
  revert best hist.
  induction tags as [|t0 tags IH]; intros best hist Hrun Hin Hsearch.
  { apply elem_of_nil in Hin. contradiction. }
  cbn [Ddex.score_tags] in Hrun.
  destruct (decide (t0 = t)) as [->|Hne].
  - rewrite Hsearch in Hrun.
    destruct (score url text t) as [sc|] eqn:Hsc; [|discriminate].
    assert (Hmid : exists b1 u1, update_best t sc url best !! t = Some (b1, u1) /\ (sc <= b1)%Z).
    { rewrite update_best_lookup. destruct (decide (t = t)); [|congruence].
      destruct (best !! t) as [[b u0]|]; [|eexists _, _; split; [reflexivity | lia]].
      destruct (Z.gtb_spec sc b); eexists _, _; (split; [reflexivity | lia]). }
    destruct Hmid as (b1 & u1 & Hl1 & Hle).
    destruct (score_tags_monotone brackets_ok _ _ _ _ _ _ _ Hrun t b1 u1 Hl1)
      as (b' & u' & Hl' & Hrel).
    exists sc, b', u'. split; [reflexivity|]. split; [exact Hl'|].
    destruct Hrel as [[= -> ->]|Hlt]; lia.
  - apply elem_of_cons in Hin as [->|Hin]; [congruence|].
    destruct (Re.search t0 text).
    + destruct (score url text t0) as [sc0|]; [|discriminate]. eapply IH; eauto.
    + eapply IH; eauto.
Qed.

(** X15: when an iteration fetches a usable page, every tag of the caller
    that stands as a whole word in the text extracted from the page is in
    the table afterwards, with a score at least the score of this page for
    the tag: a match is never dropped. *)
Theorem crawl_records_matching_tag (tags : list string) (s s' : crawl_state World)
    (url : string) (depth : nat) (q : list (string * nat)) (page : string)
    (n' : net World) (links : list string) (text : string) (t : string) :
  crawl_step tags s = Continue s' ->
  queue s = (url, depth) :: q ->
  url ∉ visited s -> same_domain url = true ->
  fetch send url (network s) = (Some page, n') -> page <> EmptyString ->
  extract_links url page = Some (links, text) ->
  t ∈ tags ->
  whole_word_in t text ->
  exists sc sc' u',
    score url text t = Some sc /\
    best_for_tag s' !! t = Some (sc', u') /\ (sc <= sc')%Z.
Proof.
  intros Hstep Hq Hnv Hd Hf Hne He Hin Hword. apply search_spec in Hword.
  unfold Ddex.crawl_step in Hstep. rewrite Hq in Hstep.
  destruct (negb (pages s <? MAX_PAGES)%nat); [discriminate|].
  rewrite (bool_decide_eq_false_2 _ Hnv), Hd, Hf in Hstep. cbn [negb orb] in Hstep.
  destruct page as [|c h]; [congruence|]. rewrite He in Hstep.
  destruct (score_tags url text tags (best_for_tag s) (scored s)) as [[best hist]|] eqn:Hsc;
    [|discriminate].
  injection Hstep as <-. cbn [best_for_tag].
  eapply score_tags_records; eauto.
Qed.

(** X16: [main] never runs forever.  With enough fuel for the crawl (and
    with any more), either it yields an output mapping, which has exactly
    the keys of the input mapping, or the crawl has ended on an exception,
    in a state where BeautifulSoup raises on the page just fetched. *)
Theorem main_returns_or_parser_raises (data : list (string * json)) (n : net World) :
  exists fuel,
    (forall fuel', (fuel <= fuel')%nat ->
       exists out n', main fuel' data n = Some (out, n') /\
         dom out = list_to_set (map fst data)) \/
    ((forall fuel', (fuel <= fuel')%nat ->
        crawl_loop (map fst data) fuel' (crawl_init n) = Exception /\
        main fuel' data n = None) /\
     exists s, reachable (map fst data) n s /\ parser_raises_at s).
Proof.
  destruct (crawl_loop_outcome brackets_ok urljoin_defrag soup_raises soup_hrefs soup_texts
              World send (map fst data) n) as (fuel & [(s & Hrun & _)|(Hrun & Hraise)]);
    exists fuel.
  - left. intros fuel' Hle. unfold Ddex.main, Ddex.crawl. rewrite (Hrun fuel' Hle).
    destruct (reconcile send (crawl_result s) data ∅ (network s)) as [out n'] eqn:Hrec.
    exists out, n'. split; [reflexivity|].
    replace out with (fst (reconcile send (crawl_result s) data ∅ (network s)))
      by (rewrite Hrec; reflexivity).
    rewrite reconcile_dom, dom_empty_L. apply (left_id_L ∅ (∪)).
  - right. split; [|exact Hraise].
    intros fuel' Hle. split; [apply Hrun; exact Hle|].
    unfold Ddex.main, Ddex.crawl. rewrite (Hrun fuel' Hle). reflexivity.
Qed.

(** X18: [crawl] never runs forever, whatever the network answers and the
    pages contain.  With enough fuel (and with any more), either the loop
    stops in a state of the crawl where the queue is empty or the page
    count has reached [MAX_PAGES], and [crawl] returns the URL of every
    entry of the best-score table of that state; or it ends on an
    exception, in a state where BeautifulSoup raises on the page just
    fetched, and [crawl] returns nothing. *)
Theorem crawl_returns_or_parser_raises (tags : list string) (n : net World) :
  exists fuel,
    (exists s,
       (forall fuel', (fuel <= fuel')%nat ->
          crawl_loop tags fuel' (crawl_init n) = Finished s /\
          crawl fuel' tags n = Some (crawl_result s, network s)) /\
       reachable tags n s /\
       (queue s = [] \/ pages s = MAX_PAGES) /\
       (forall t, crawl_result s !! t = snd <$> best_for_tag s !! t)) \/
    ((forall fuel', (fuel <= fuel')%nat ->
        crawl_loop tags fuel' (crawl_init n) = Exception /\
        crawl fuel' tags n = None) /\
     exists s, reachable tags n s /\ parser_raises_at s).
Proof.
  destruct (crawl_loop_outcome brackets_ok urljoin_defrag soup_raises soup_hrefs soup_texts
              World send tags n) as (fuel & [(s & Hrun & Hr & Hstop)|(Hrun & Hraise)]);
    exists fuel.
  - left. exists s. split; [|split; [exact Hr|split]].
    + intros fuel' Hle. split; [apply Hrun; exact Hle|].
      unfold Ddex.crawl. rewrite (Hrun fuel' Hle). reflexivity.
    + apply crawl_step_stop in Hstop as [Hq|Hge]; [auto|]. right.
      pose proof (pages_bounded brackets_ok urljoin_defrag soup_raises soup_hrefs
                    soup_texts World send tags n s Hr). lia.
    + intros t. unfold crawl_result. apply lookup_fmap.
  - right. split; [|exact Hraise].
    intros fuel' Hle. split; [apply Hrun; exact Hle|].
    unfold Ddex.crawl. rewrite (Hrun fuel' Hle). reflexivity.
Qed.

End FurtherCrawl.

(** The state of the small site after the first iteration of the crawl. *)
Definition toy_first_step : crawl_state nat :=
  match crawl_step Toy.brackets_ok Toy.join Toy.raises Toy.hrefs Toy.texts nat Toy.send Toy.tags
          (crawl_init Toy.n0) with
  | Continue s => s
  | _ => crawl_init Toy.n0
  end.

Lemma crawl_fetches_each_url_once_witness :
  NoDup (map (fun p => snd (fst p)) (printed Toy.final)) /\
  visited Toy.final = list_to_set (map (fun p => snd (fst p)) (printed Toy.final)) /\
  sent (network Toy.final) =
    sent Toy.n0 ++ map (fun p => GET (snd (fst p)) FETCH_TIMEOUT) (printed Toy.final).
Proof.
  exact (crawl_fetches_each_url_once Toy.brackets_ok Toy.join Toy.raises Toy.hrefs Toy.texts nat
           Toy.send Toy.tags Toy.n0 Toy.final toy_final_reachable).
Defined.

Lemma crawl_stays_on_allowed_domains_witness :
  Forall (fun x => fst x <> EmptyString /\ same_domain Toy.brackets_ok (fst x) = true)
         (queue Toy.final) /\
  Forall (fun p => same_domain Toy.brackets_ok (snd (fst p)) = true) (printed Toy.final).
Proof.
  exact (crawl_stays_on_allowed_domains Toy.brackets_ok Toy.join Toy.raises Toy.hrefs Toy.texts nat
           Toy.send Toy.tags Toy.n0 Toy.final toy_final_reachable).
Defined.

Lemma crawl_page_count_witness :
  pages Toy.final = length (List.filter (fun p => snd p) (printed Toy.final)) /\
  (pages Toy.final <= MAX_PAGES)%nat.
Proof.
  exact (crawl_page_count Toy.brackets_ok Toy.join Toy.raises Toy.hrefs Toy.texts nat
           Toy.send Toy.tags Toy.n0 Toy.final toy_final_reachable).
Defined.

Lemma crawl_result_sound_witness :
  "ISRC" ∈ Toy.tags /\ Toy.leaf <> EmptyString /\
  same_domain Toy.brackets_ok Toy.leaf = true.
Proof.
  refine (crawl_result_sound Toy.brackets_ok Toy.join Toy.raises Toy.hrefs Toy.texts nat
            Toy.send Toy.tags Toy.n0 Toy.final toy_final_reachable "ISRC" Toy.leaf _).
  vm_compute. reflexivity.
Defined.

Lemma crawl_records_matching_tag_witness :
  exists sc sc' u',
    score Toy.brackets_ok Toy.root ("DDEX" +:+ newline +:+ "The ISRC is a code") "ISRC"
      = Some sc /\
    best_for_tag toy_first_step !! "ISRC" = Some (sc', u') /\ (sc <= sc')%Z.
Proof.
  refine (crawl_records_matching_tag Toy.brackets_ok Toy.join Toy.raises Toy.hrefs Toy.texts
            nat Toy.send Toy.tags (crawl_init Toy.n0) toy_first_step Toy.root 0%nat
            [("https://service.ddex.net/dd/ERN38/", 0%nat);
             ("https://ddex.net/standards/", 0%nat)]
            "root" (Net 1%nat [GET Toy.root FETCH_TIMEOUT]) [Toy.leaf; Toy.root]
            ("DDEX" +:+ newline +:+ "The ISRC is a code") "ISRC" _ _ _ _ _ _ _ _ _).
  - vm_compute. reflexivity.
  - vm_compute. reflexivity.
  - cbn. apply not_elem_of_empty.
  - vm_compute. reflexivity.
  - vm_compute. reflexivity.
  - discriminate.
  - vm_compute. reflexivity.
  - apply list_elem_of_here.
  - apply search_spec. vm_compute. reflexivity.
Defined.

(** ** The requests of the reconciliation loop *)

Section ReconcileRequests.

Variable World : Type.
Variable send : request -> World -> option response * World.

Local Abbreviation check_url_alive := (check_url_alive send).
Local Abbreviation reconcile_entry := (reconcile_entry send).
Local Abbreviation reconcile := (reconcile send).

Lemma reconcile_entry_requests (scraped : gmap string string) (k : string) (v : json)
    (n : net World) :
  exists reqs,
    sent (snd (reconcile_entry scraped k v n)) = sent n ++ reqs /\
    (length reqs <= 2)%nat /\
    Forall (fun rq => match rq with
                      | HEAD _ t => t = CHECK_TIMEOUT
                      | GET _ t => t = CHECK_TIMEOUT
                      end) reqs.
Proof.
  rewrite reconcile_entry_final. cbv zeta.
  destruct (Str.nonempty _).
  2:{ exists []. cbn [snd]. rewrite app_nil_r. repeat split; [cbn; lia | constructor]. }
  cbn [snd]. rewrite check_url_alive_requests. eexists. split; [reflexivity|].
  destruct (_ && _); [|split; [cbn; lia | constructor]].
  destruct (fst _) as [r|]; [destruct (status_code r =? 405)%Z|];
    (split; [cbn; lia | repeat constructor]).
Qed.

(** X17: the reconciliation loop sends at most two requests per tag, all
    of them liveness probes (timeout 8), after the requests sent before. *)
Theorem reconcile_request_budget (scraped : gmap string string)
    (data : list (string * json)) (updated : gmap string string) (n : net World) :
  exists reqs,
    sent (snd (reconcile scraped data updated n)) = sent n ++ reqs /\
    (length reqs <= 2 * length data)%nat /\
    Forall (fun rq => match rq with
                      | HEAD _ t => t = CHECK_TIMEOUT
                      | GET _ t => t = CHECK_TIMEOUT
                      end) reqs.
Proof.
  revert updated n. induction data as [|[k v] data IH]; intros updated n.
  - exists []. cbn. rewrite app_nil_r. repeat split; [lia | constructor].
  - cbn [Ddex.reconcile].
    destruct (reconcile_entry_requests scraped k v n) as (r1 & Hs1 & Hl1 & Hf1).
    destruct (reconcile_entry scraped k v n) as [f n1]. cbn [snd] in Hs1.
    destruct (IH (<[k:=f]> updated) n1) as (r2 & Hs2 & Hl2 & Hf2).
    exists (r1 ++ r2). split; [|split].
    + rewrite Hs2, Hs1, <- app_assoc. reflexivity.
    + rewrite length_app. cbn [length]. lia.
    + apply Forall_app. auto.
Qed.

End ReconcileRequests.
